(** * RedShot: the poll loop, the locator table and search-result extraction

    A shallow embedding of [redshot/client.py] and
    [redshot/constants/locator.py], with the properties of the poll loop
    ([Client.main_loop]), the session control surface ([Client.stop]),
    the state classifier ([Client._get_state]), the search pipeline
    ([Client.search]) and the locator table ([Locator]). *)

From Stdlib Require Import Ascii String NArith ZArith List Lia Bool.
From Stdlib Require Import Sorting.Sorted Sorting.Permutation.
From stdpp Require Import base option list strings gmap fin_maps.

Local Open Scope string_scope.
Local Open Scope list_scope.

Local Set Warnings "-register-all".

(* ===================================================================== *)
(** ** Exceptions and results *)

(** The exceptions the modelled code can meet.  The two Selenium ones are
    those named in the [except] clause of [main_loop]; [WebDriverException]
    stands for every other driver failure (a lost connection, a crashed
    browser). *)
Inductive Exn : Type :=
| StaleElementReferenceException
| NoSuchElementException
| WebDriverException
| AttributeError
| IndexError.

Inductive Result (A : Type) : Type :=
| Ok (a : A)
| Raise (e : Exn).
Arguments Ok {A} a.
Arguments Raise {A} e.

Definition is_Ok {A} (r : Result A) : bool :=
  match r with Ok _ => true | Raise _ => false end.

Module Res.
Definition bind {A B} (r : Result A) (k : A -> Result B) : Result B :=
  match r with Ok a => k a | Raise e => Raise e end.

(** Left-to-right traversal that stops at the first exception. *)
Fixpoint mapM {A B} (f : A -> Result B) (l : list A) : Result (list B) :=
  match l with
  | [] => Ok []
  | x :: l' =>
      bind (f x) (fun y => bind (mapM f l') (fun ys => Ok (y :: ys)))
  end.
End Res.

(* ===================================================================== *)
(** ** [constants/locator.py]: the locator table *)

(** A locator is the pair handed to [find_element]: a strategy ([By.XPATH]
    is the string [xpath]) and a query. *)
Definition locator : Type := string * string.

Definition XPATH : string := "xpath".

(** [str.upper], on the ASCII letters. *)
Definition upper_ascii (c : ascii) : ascii :=
  let n := N_of_ascii c in
  if ((97 <=? n) && (n <=? 122))%N then ascii_of_N (n - 32) else c.

Fixpoint upper (s : string) : string :=
  match s with
  | EmptyString => EmptyString
  | String c s' => String (upper_ascii c) (upper s')
  end.

(** The class body of [Locator]: its attributes, by name. Only the
    upper-case attributes are listed: every other attribute of the class
    (its three class methods, the attributes inherited from [object])
    has a lower-case letter in its name, and both accessors upper-case
    the name before they look it up. *)
Definition Locator_attrs : list (string * locator) :=
  [ ("AUTH", (XPATH, "//div[contains(text(), 'Use WhatsApp on your computer')]"));
    ("QR_CODE", (XPATH, "//canvas[@aria-label='Scan this QR code to link a device!']"));
    ("LOADING", (XPATH, "//div[//span[@data-icon='lock'] and contains(text(), 'End-to-end encrypted') and //progress]"));
    ("LOADING_CHATS", (XPATH, "//div[text()='Loading your chats']"));
    ("LOGGED_IN", (XPATH, "//div[@title='Chats']"));
    ("CHATS_BUTTON", (XPATH, "//div[@aria-label='Chats']"));
    ("STATUS_BUTTON", (XPATH, "//div[@aria-label='Status']"));
    ("CHANNELS_BUTTON", (XPATH, "//div[@aria-label='Channels']"));
    ("COMMUNITIES_BUTTON", (XPATH, "//div[@aria-label='Communities']"));
    ("ALL_CHATS_BUTTON", (XPATH, "//div[text()='All']"));
    ("UNREAD_CHATS_BUTTON", (XPATH, "//div[text()='Unread']"));
    ("FAVOURITES_CHATS_BUTTON", (XPATH, "//div[text()='Favourites']"));
    ("GROUPS_CHATS_BUTTON", (XPATH, "//div[text()='Groups']"));
    ("SEARCH_BUTTON_INACTIVE", (XPATH, "//button[@aria-label='Search or start new chat']"));
    ("SEARCH_BUTTON_ACTIVE", (XPATH, "//button[@aria-label='Chat list']"));
    ("CANCEL_SEARCH_BUTTON", (XPATH, "//button[@aria-label='Cancel search']"));
    ("CHAT_INPUT_BOX", (XPATH, "//div[@aria-placeholder='Type a message']"));
    ("SEARCH_RESULT", (XPATH, "//div[@aria-label='Search results.']"));
    ("SEARCH_ITEM", (XPATH, "//div[@role='listitem']"));
    ("SEARCH_ITEM_COMPONENTS", (XPATH, ".//div[@role='gridcell' and @aria-colindex='2']/parent::div/div"));
    ("SEARCH_ITEM_UNREAD_MESSAGES", (XPATH, ".//span[contains(@aria-label, 'unread message')]"));
    ("SPAN_TITLE", (XPATH, ".//span[@title]"));
    ("CHAT_DIV", (XPATH, "//div[@role='application']"));
    ("UNREAD_CHAT_DIV", (XPATH, "//div[@aria-label='Chat list']"));
    ("CHAT_COMPONENT", (XPATH, ".//div[@role='row']"));
    ("CHAT_MESSAGE_DATA_ID", (XPATH, ".//div[@data-id]"));
    ("CHAT_MESSAGE", (XPATH, ".//div[@data-pre-plain-text]"));
    ("CHAT_MESSAGE_QUOTE", (XPATH, ".//div[@aria-label='Quoted message']"));
    ("CHAT_MESSAGE_IMAGE", (XPATH, ".//div[@aria-label='Open picture']"));
    ("CHAT_MESSAGE_IMAGE_ELEMENT", (XPATH, ".//img[starts-with(@src, 'blob:https://web.whatsapp.com')]")) ].

Definition Locator : gmap string locator := list_to_map Locator_attrs.

(** [hasattr(cls, name)] *)
Definition hasattr (cls : gmap string locator) (name : string) : bool :=
  bool_decide (is_Some (cls !! name)).

(** [Locator.set_locator]: the class after the call, and the returned
    flag. *)
Definition set_locator (locator_name : string) (loc : locator)
    (cls : gmap string locator) : gmap string locator * bool :=
  let name := upper locator_name in
  if hasattr cls name then (<[name := loc]> cls, true) else (cls, false).

(** [Locator.set_locators]: the items of the dict in their order, one
    flag per item. *)
Fixpoint set_locators (locators : list (string * locator))
    (cls : gmap string locator) : gmap string locator * list bool :=
  match locators with
  | [] => (cls, [])
  | (key, value) :: rest =>
      let '(cls1, b) := set_locator key value cls in
      let '(cls2, bs) := set_locators rest cls1 in
      (cls2, b :: bs)
  end.

(** [Locator.get_locator]: [getattr(cls, name.upper(), None)]. *)
Definition get_locator (locator_name : string)
    (cls : gmap string locator) : option locator :=
  cls !! upper locator_name.

(** An attribute read [Locator.NAME] in [client.py]. *)
Definition getattr (cls : gmap string locator) (name : string) : Result locator :=
  match cls !! name with
  | Some l => Ok l
  | None => Raise AttributeError
  end.

(* ===================================================================== *)
(** ** Page fragments *)

(** An element handle, as far as the code reads it: the tag, the
    attributes, what [value_of_css_property("transform")] gives, what
    [.text] gives, and the child elements in document order. *)
Inductive Element : Type :=
  Elem { tag : string;
         attrs : list (string * string);
         transform : string;
         text : string;
         children : list Element }.

(** [element.find_elements(By.XPATH, "./div")] *)
Definition find_child_divs (e : Element) : list Element :=
  filter (fun c => tag c = "div") (children e).

(** [element.find_elements(By.XPATH, "./*")] *)
Definition find_child_elements (e : Element) : list Element := children e.

(** The descendants of [e], in document order. *)
Fixpoint descendants (e : Element) : list Element :=
  (fix go (l : list Element) : list Element :=
     match l with
     | [] => []
     | c :: l' => c :: descendants c ++ go l'
     end) (children e).

(** [element.find_elements(By.XPATH, ".//tag[...]")]: the descendants of
    [e] with the given tag that pass [test], in document order. *)
Definition find_descendants (tg : string) (test : Element -> bool)
    (e : Element) : list Element :=
  filter (fun d => tag d = tg /\ test d = true) (descendants e).

Definition get_attribute (name : string) (e : Element) : option string :=
  snd <$> List.find (fun kv => String.eqb (fst kv) name) (attrs e).

(* ===================================================================== *)
(** ** [Client.search]: the ordering key *)

Definition is_digit (c : ascii) : bool :=
  let n := N_of_ascii c in ((48 <=? n) && (n <=? 57))%N.

(** [re.findall(r"\d+", s)]: the maximal runs of digits of [s], left to
    right. [run] is the run being read. *)
Definition flush (run : string) : list string :=
  match run with EmptyString => [] | _ => [run] end.

Fixpoint findall_digits_from (run : string) (s : string) : list string :=
  match s with
  | EmptyString => flush run
  | String c s' =>
      if is_digit c then findall_digits_from (run +:+ String c EmptyString) s'
      else flush run ++ findall_digits_from EmptyString s'
  end.

Definition findall_digits (s : string) : list string :=
  findall_digits_from EmptyString s.

(** [int(token)] on a token of decimal digits. *)
Fixpoint int_from (acc : N) (s : string) : N :=
  match s with
  | EmptyString => acc
  | String c s' => int_from (10 * acc + (N_of_ascii c - 48))%N s'
  end.

Definition int (s : string) : N := int_from 0%N s.

(** [self.search_sort_key], line 36 of [client.py]: the last numeric
    token of the transform; [tokens[-1]] raises [IndexError] when there
    is none. *)
Definition search_sort_key (i : Element) : Result N :=
  match last (findall_digits (transform i)) with
  | Some token => Ok (int token)
  | None => Raise IndexError
  end.

(** [sorted(items, key=key)]: the keys are computed once, left to right
    (an exception of the key function ends the call); the order is
    ascending and stable. The algorithm is a stable insertion: a new
    element goes before the first element whose key is not smaller. *)
Fixpoint insert_by_key {A} (x : N * A) (l : list (N * A)) : list (N * A) :=
  match l with
  | [] => [x]
  | y :: l' => if (fst x <=? fst y)%N then x :: y :: l' else y :: insert_by_key x l'
  end.

Definition sort_by_key {A} (l : list (N * A)) : list (N * A) :=
  foldr insert_by_key [] l.

Definition sorted {A} (key : A -> Result N) (items : list A) : Result (list A) :=
  Res.bind (Res.mapM key items) (fun keys =>
  Ok (map snd (sort_by_key (combine keys items)))).

(* ===================================================================== *)
(** ** [Client.search]: headers, items and results *)

Record SearchResult : Type := {
  category : option string;
  title : string;
  unreadCount : option N
}.

Fixpoint contains (needle hay : string) : bool :=
  String.prefix needle hay ||
  match hay with
  | EmptyString => false
  | String _ hay' => contains needle hay'
  end.

(** Modelled from the spec: [utils.parse_search_result] is not under
    src/. The spec gives its contract: an item fragment produces a
    SearchResult (category, title, optional unread count) tagged with the
    category it is called with, and a fragment of no known shape gives
    "not applicable" ([None]). The title is read from the first
    descendant matched by [SPAN_TITLE] and the unread count from the
    first one matched by [SEARCH_ITEM_UNREAD_MESSAGES], the two locators
    of [locator.py] for the parts of a search item. *)
Definition parse_search_result (element : Element) (result_type : option string)
    : option SearchResult :=
  let has_title s := bool_decide (is_Some (get_attribute "title" s)) in
  let is_unread s :=
    match get_attribute "aria-label" s with
    | Some label => contains "unread message" label
    | None => false
    end in
  match find_descendants "span" has_title element with
  | [] => None
  | span :: _ =>
      Some {| category := result_type;
              title := default "" (get_attribute "title" span);
              unreadCount :=
                (fun s => int (text s)) <$> head (find_descendants "span" is_unread element) |}
  end.

Section Search.

(** The parser of one search item, [utils.parse_search_result]. *)
Variable parse : Element -> option string -> option SearchResult.

(** One turn of the [for] loop of [search] (lines 341-352), on the two
    variables it updates: [curr_type] and [results]. *)
Definition search_step (vars : option string * list SearchResult)
    (result : Element) : option string * list SearchResult :=
  let '(curr_type, results) := vars in
  let child_divs := find_child_divs result in
  let parsed :=
    match parse result curr_type with
    | Some search_result => (curr_type, results ++ [search_result])
    | None => (curr_type, results)
    end in
  match child_divs with
  | [child] =>
      if (length (find_child_elements child) =? 0)%nat
      then (Some (text child), results)
      else parsed
  | _ => parsed
  end.

Definition search_loop (sorted_result_items : list Element)
  : option string * list SearchResult :=
  fold_left search_step sorted_result_items (None, []).

(** [search], from line 338 on: [result_items] is what
    [result.find_elements( *Locator.SEARCH_ITEM)] returned. The clicks
    and keystrokes before it and the closing click do not touch
    [results]. *)
Definition search_from (result_items : list Element) : Result (list SearchResult) :=
  Res.bind (sorted search_sort_key result_items) (fun sorted_result_items =>
  Ok (snd (search_loop sorted_result_items))).

End Search.

Definition search : list Element -> Result (list SearchResult) :=
  search_from parse_search_result.

(** The two fragment shapes of a result list, as the page renders them:
    a header row holds one [div] with only text; an item row holds a
    grid whose cells carry the title in a [span]. *)
Definition header (y : string) (name : string) : Element :=
  Elem "div" [("role", "listitem")] ("translateY(" +:+ y +:+ "px)") name
    [Elem "div" [] "none" name []].

Definition item (y : string) (name : string) : Element :=
  Elem "div" [("role", "listitem")] ("translateY(" +:+ y +:+ "px)") name
    [Elem "div" [("role", "row")] "none" name
       [Elem "div" [("role", "gridcell"); ("aria-colindex", "2")] "none" name
          [Elem "span" [("title", name)] "none" name []]]].

(* ===================================================================== *)
(** ** [client.py]: the client, its events and its driver *)

(** [redshot.constants.State], by the four members [client.py] names.
    The classifier's [None] is [None : option State]. *)
Inductive State : Type := AUTH | QR_AUTH | LOADING | LOGGED_IN.

#[global] Instance State_eq_dec : EqDecision State.
Proof. solve_decision. Defined.

(** What [utils.extract_image_from_canvas] returns: the bytes of the
    image. *)
Definition bytes : Type := list Byte.byte.

#[global] Instance byte_eq_dec : EqDecision Byte.byte.
Proof.
  intros x y. destruct (Byte.eqb x y) eqn:E.
  - left. by apply Byte.byte_dec_bl.
  - right. intros ->. by rewrite Byte.byte_dec_lb in E.
Defined.

(** The events of [EVENT_LIST] with the arguments [main_loop] passes. *)
Inductive Event : Type :=
| on_start
| on_auth
| on_qr (qr : bytes)
| on_qr_change (qr : bytes)
| on_loading (loading_chats : bool)
| on_logged_in
| on_unread_chat (chat : SearchResult)
| on_tick.

(** The state a state-entry event announces. *)
Definition entered (e : Event) : option State :=
  match e with
  | on_auth => Some AUTH
  | on_qr _ => Some QR_AUTH
  | on_loading _ => Some LOADING
  | on_logged_in => Some LOGGED_IN
  | _ => None
  end.

Definition is_state_entry (e : Event) : bool := bool_decide (is_Some (entered e)).

Definition is_tick (e : Event) : bool :=
  match e with on_tick => true | _ => false end.

(** The browser session behind [self._driver]: the model keeps how many
    times [quit()] was called on it. *)
Record Chrome : Type := { quit_calls : nat }.

Definition quit (d : Chrome) : Chrome := {| quit_calls := S (quit_calls d) |}.

(** The fields of [Client] that [main_loop] and [stop] read or write.
    [handlers] stands for the registered handlers: [handlers e] tells
    whether the handler called for [e] calls [self.stop()], the one way
    a handler acts on the client (as [on_logged_in] of
    [examples/simple_example.py] does). *)
Record Client : Type := {
  running : bool;
  quited : bool;
  _driver : option Chrome;
  handlers : Event -> bool
}.

(** [Client.__init__], lines 31-33. *)
Definition __init__ (handlers : Event -> bool) : Client :=
  {| running := false; quited := false; _driver := None; handlers := handlers |}.

(** [Client._init_driver]: a fresh session. *)
Definition _init_driver (c : Client) : Chrome := {| quit_calls := 0 |}.

(** [Client.stop], lines 186-192. [self._driver.quit()] on a driver that
    is [None] raises [AttributeError], after the two flags are set. *)
Definition stop (c : Client) : Client * Result unit :=
  let c1 := {| running := false; quited := quited c;
               _driver := _driver c; handlers := handlers c |} in
  let c2 := {| running := running c1; quited := true;
               _driver := _driver c1; handlers := handlers c1 |} in
  match _driver c2 with
  | Some d => ({| running := running c2; quited := quited c2;
                  _driver := Some (quit d); handlers := handlers c2 |}, Ok tt)
  | None => (c2, Raise AttributeError)
  end.

(** What the page answers during one iteration of the loop. The
    presence probes and the later lookups are separate answers: the page
    redraws between two calls.
    [is_present] and [extract_image_from_canvas] are the helpers of
    [redshot.utils]; [is_present] gives [False] for an absent fragment
    and raises only on another driver failure. *)
Record Page : Type := {
  is_present : locator -> Result bool;
  find_element : locator -> Result Element;
  find_elements : locator -> Result (list Element);
  find_elements_in : Element -> locator -> Result (list Element);
  click : Element -> Result unit;
  extract_image_from_canvas : Element -> Result bytes
}.

Declare Scope res_scope.
Delimit Scope res_scope with res.
Bind Scope res_scope with Result.
Notation "'let!' x ':=' r 'in' k" := (Res.bind r (fun x => k))
  (at level 10, x name, r at level 100, k at level 200) : res_scope.

(** [Client._get_state], lines 194-205. *)
Definition _get_state (L : gmap string locator) (p : Page) : Result (option State) :=
  (let! logged_in := (let! l := getattr L "LOGGED_IN" in is_present p l) in
   if logged_in : bool then Ok (Some LOGGED_IN) else
   let! loading := (let! l := getattr L "LOADING" in is_present p l) in
   if loading : bool then Ok (Some LOADING) else
   let! qr := (let! l := getattr L "QR_CODE" in is_present p l) in
   if qr : bool then Ok (Some QR_AUTH) else
   let! auth := (let! l := getattr L "AUTH" in is_present p l) in
   if auth : bool then Ok (Some AUTH) else
   Ok None)%res.

(** Lines 116-117 and 138-139: locate the canvas and export its image. *)
Definition extract_qr (L : gmap string locator) (p : Page) : Result bytes :=
  (let! l := getattr L "QR_CODE" in
   let! qr_code_canvas := find_element p l in
   extract_image_from_canvas p qr_code_canvas)%res.

(** Lines 153-169: the unread-chat scan of a logged-in steady tick, up
    to the list of chats the events are fired for. *)
Definition unread_scan (L : gmap string locator) (p : Page) : Result (list SearchResult) :=
  (let! l := getattr L "UNREAD_CHATS_BUTTON" in
   let! button := find_element p l in
   let! _ := click p button in
   let! l := getattr L "UNREAD_CHAT_DIV" in
   let! chat_list := find_elements p l in
   let! unread_chats :=
     match chat_list with
     | [] => Ok []
     | chat_div :: _ =>
         let! l := getattr L "SEARCH_ITEM" in
         let! chats := find_elements_in p chat_div l in
         Ok (omap (fun chat => parse_search_result chat (Some "CHATS")) chats)
     end in
   let! l := getattr L "ALL_CHATS_BUTTON" in
   let! button := find_element p l in
   let! _ := click p button in
   Ok unread_chats)%res.

(* ===================================================================== *)
(** ** [Client.main_loop] *)

(** What one run of [main_loop] works on: the client, the two local
    variables [state] and [qr_binary], and the events triggered so far,
    oldest first. *)
Record Frame : Type := {
  self : Client;
  state : option State;
  qr_binary : option bytes;
  fired : list Event
}.

(** A statement of [main_loop]: it changes the frame and returns or
    raises. An exception keeps the changes made before it. *)
Definition M (A : Type) : Type := Frame -> Frame * Result A.

Definition ret {A} (a : A) : M A := fun fr => (fr, Ok a).

Definition bind {A B} (m : M A) (k : A -> M B) : M B :=
  fun fr =>
    match m fr with
    | (fr', Ok a) => k a fr'
    | (fr', Raise e) => (fr', Raise e)
    end.

(** A call into the driver: no change of the frame. *)
Definition call {A} (r : Result A) : M A := fun fr => (fr, r).

(** [try: body except (exceptions): handler] *)
Definition try_except {A} (body : M A) (caught : Exn -> bool) (handler : M A) : M A :=
  fun fr =>
    match body fr with
    | (fr', Raise e) => if caught e then handler fr' else (fr', Raise e)
    | done_ => done_
    end.

Declare Scope loop_scope.
Delimit Scope loop_scope with loop.
Notation "'let!' x ':=' m 'in' k" := (bind m (fun x => k))
  (at level 10, x name, m at level 100, k at level 200) : loop_scope.
Notation "m ';;' k" := (bind m (fun _ => k))
  (at level 100, k at level 200, right associativity) : loop_scope.

Definition set_state (s : option State) : M unit :=
  fun fr => ({| self := self fr; state := s;
                qr_binary := qr_binary fr; fired := fired fr |}, Ok tt).

Definition set_qr_binary (qr : option bytes) : M unit :=
  fun fr => ({| self := self fr; state := state fr;
                qr_binary := qr; fired := fired fr |}, Ok tt).

Definition set_self (c : Client) : M unit :=
  fun fr => ({| self := c; state := state fr;
                qr_binary := qr_binary fr; fired := fired fr |}, Ok tt).

Definition record (e : Event) : M unit :=
  fun fr => ({| self := self fr; state := state fr;
                qr_binary := qr_binary fr; fired := fired fr ++ [e] |}, Ok tt).

(** [self.stop()] called while the loop runs (from a handler). *)
Definition self_stop : M unit :=
  fun fr =>
    let '(c, r) := stop (self fr) in
    ({| self := c; state := state fr;
        qr_binary := qr_binary fr; fired := fired fr |}, r).

(** Modelled from the spec: [EventHandler.trigger_event]
    ([redshot/event.py]) is not under src/. The spec has it invoke the
    handler registered for the event, synchronously, at trigger time; the
    event is recorded in [fired] and the handler then runs. *)
Definition trigger_event (e : Event) : M unit :=
  (record e ;;
   fun fr => if handlers (self fr) e then self_stop fr else ret tt fr)%loop.

(** [for chat in unread_chats: self.trigger_event("on_unread_chat", chat)] *)
Fixpoint trigger_unread (unread_chats : list SearchResult) : M unit :=
  match unread_chats with
  | [] => ret tt
  | chat :: rest => (trigger_event (on_unread_chat chat) ;; trigger_unread rest)%loop
  end.

Definition qr_race (e : Exn) : bool :=
  match e with
  | StaleElementReferenceException | NoSuchElementException => true
  | _ => false
  end.

(** Lines 109-129: the branch of a changed state. *)
Definition transition (L : gmap string locator) (p : Page) (curr_state : State) : M unit :=
  (match curr_state with
   | AUTH => trigger_event on_auth
   | QR_AUTH =>
       let! qr := call (extract_qr L p) in
       set_qr_binary (Some qr) ;;
       trigger_event (on_qr qr)
   | LOADING =>
       let! loading_chats :=
         call (let! l := getattr L "LOADING_CHATS" in is_present p l)%res in
       trigger_event (on_loading loading_chats)
   | LOGGED_IN => trigger_event on_logged_in
   end ;;
   set_state (Some curr_state))%loop.

(** Lines 131-172: the branch of an unchanged state. *)
Definition steady (L : gmap string locator) (p : Page) (curr_state : State) : M unit :=
  (if decide (curr_state = QR_AUTH) then
     try_except
       (let! curr_qr_binary := call (extract_qr L p) in
        fun fr =>
          if decide (Some curr_qr_binary <> qr_binary fr) then
            (set_qr_binary (Some curr_qr_binary) ;;
             trigger_event (on_qr_change curr_qr_binary)) fr
          else ret tt fr)
       qr_race
       (ret tt)
   else if decide (curr_state = LOGGED_IN) then
     let! unread_chats := call (unread_scan L p) in
     trigger_unread unread_chats
   else ret tt)%loop.

(** Lines 100-175: one iteration of the [while] loop. The two
    [asyncio.sleep] calls take time and do nothing else. *)
Definition iteration (L : gmap string locator) (p : Page) : M unit :=
  (let! curr_state := call (_get_state L p) in
   match curr_state with
   | None => ret tt
   | Some curr_state =>
       (fun fr =>
          if decide (Some curr_state <> state fr)
          then transition L p curr_state fr
          else steady L p curr_state fr) ;;
       trigger_event on_tick
   end)%loop.

(** [while self.running: ...] over the pages the browser shows, one per
    iteration. The loop ends when the flag is found cleared or when an
    iteration raises; when the pages run out the loop is still
    running and the frame is the one reached so far. *)
Fixpoint while_running (L : gmap string locator) (pages : list Page) : M unit :=
  fun fr =>
    if running (self fr) then
      match pages with
      | [] => (fr, Ok tt)
      | p :: rest => (iteration L p ;; while_running L rest)%loop fr
      end
    else (fr, Ok tt).

(** [Client.main_loop], lines 88-175. Creating the session and loading
    the page (lines 89-90) are taken to succeed. *)
Definition main_loop (L : gmap string locator) (pages : list Page) (c : Client)
    : Frame * Result unit :=
  let c1 := {| running := running c; quited := quited c;
               _driver := Some (_init_driver c); handlers := handlers c |} in
  (trigger_event on_start ;; while_running L pages)%loop
    {| self := c1; state := None; qr_binary := None; fired := [] |}.

(** [Client.run], lines 183-184. *)
Definition run (L : gmap string locator) (pages : list Page) (c : Client)
    : Frame * Result unit :=
  main_loop L pages {| running := true; quited := quited c;
                       _driver := _driver c; handlers := handlers c |}.

(* ===================================================================== *)
(** ** Pages and clients for the examples *)

Definition names (ns : list string) (l : locator) : bool :=
  existsb (fun n => bool_decide (Locator !! n = Some l)) ns.

(** A page on which the probes succeed for the locators named in
    [present], [find_element] succeeds for those named in [found], the
    canvas exports [image], and the chat list holds [chats]. *)
Definition page_with (present found : list string) (image : Result bytes)
    (chats : list Element) : Page :=
  {| is_present := fun l => Ok (names present l);
     find_element := fun l =>
       if names found l then Ok (Elem "div" [] "none" "" [])
       else Raise NoSuchElementException;
     find_elements := fun l =>
       if names found l then Ok [Elem "div" [] "none" "" chats] else Ok [];
     find_elements_in := fun e _ => Ok (children e);
     click := fun _ => Ok tt;
     extract_image_from_canvas := fun _ => image |}.

Definition blank_page : Page :=
  page_with [] [] (Raise StaleElementReferenceException) [].

Definition auth_page : Page :=
  page_with ["AUTH"] ["AUTH"] (Raise StaleElementReferenceException) [].

Definition qr_page (image : bytes) : Page :=
  page_with ["QR_CODE"; "AUTH"] ["QR_CODE"; "AUTH"] (Ok image) [].

(** The canvas was there for the probe and is gone for the lookup. *)
Definition qr_gone_page : Page :=
  page_with ["QR_CODE"; "AUTH"] ["AUTH"] (Raise StaleElementReferenceException) [].

(** The canvas is found and is redrawn before its image is exported. *)
Definition qr_stale_page : Page :=
  page_with ["QR_CODE"; "AUTH"] ["QR_CODE"; "AUTH"]
    (Raise StaleElementReferenceException) [].

Definition loading_page : Page :=
  page_with ["LOADING"; "LOADING_CHATS"] [] (Raise StaleElementReferenceException) [].

Definition logged_in_page (chats : list Element) : Page :=
  page_with ["LOGGED_IN"]
    ["LOGGED_IN"; "UNREAD_CHATS_BUTTON"; "UNREAD_CHAT_DIV"; "ALL_CHATS_BUTTON"]
    (Raise StaleElementReferenceException) chats.

Definition image1 : bytes := [Byte.x89; Byte.x50; Byte.x4e; Byte.x47].
Definition image2 : bytes := [Byte.x89; Byte.x50; Byte.x4e; Byte.x48].

(** No handler stops the client. *)
Definition passive : Event -> bool := fun _ => false.

(** The handler of [on_logged_in] stops the client, as in
    [examples/simple_example.py]. *)
Definition stop_when_logged_in : Event -> bool :=
  fun e => match e with on_logged_in => true | _ => false end.

(* ===================================================================== *)
(** ** The classifier outputs of a run, as the spec reads them *)

(** The classifier output of a page; a probe that raises gives no
    output. *)
Definition classified (L : gmap string locator) (p : Page) : option State :=
  match _get_state L p with
  | Ok curr_state => curr_state
  | Raise _ => None
  end.

(** The spec's "immediately preceding non-Indeterminate state" of a
    sequence of classifier outputs: the last output that is not [None],
    and [prev] when there is none. *)
Fixpoint preceding_state (prev : option State) (outputs : list (option State))
    : option State :=
  match outputs with
  | [] => prev
  | None :: rest => preceding_state prev rest
  | Some s :: rest => preceding_state (Some s) rest
  end.

(** A client on which [run] has created the session. *)
Definition started (h : Event -> bool) : Client :=
  {| running := true; quited := false;
     _driver := Some {| quit_calls := 0 |}; handlers := h |}.

(* ===================================================================== *)
(** ** Vocabulary for the search properties *)

(** The header shape of line 345: exactly one child [div], which has no
    child element. The answer is the text of that child. *)
Definition header_text (result : Element) : option string :=
  match find_child_divs result with
  | [child] =>
      if (length (find_child_elements child) =? 0)%nat then Some (text child)
      else None
  | _ => None
  end.

(** The items of a list whose sort key is [k]. *)
Definition has_key {A} (key : A -> Result N) (k : N) (x : A) : bool :=
  match key x with
  | Ok k' => (k' =? k)%N
  | Raise _ => false
  end.

Definition le_key {A} (a b : N * A) : Prop := (fst a <= fst b)%N.

(* ===================================================================== *)
(** ** Vocabulary for the loop properties *)

(** The client of the frame has a driver (from [main_loop] on it always
    has). *)
Definition has_driver (fr : Frame) : Prop := is_Some (_driver (self fr)).

(** [after fr fr']: the driver is still there, and the client is the
    same unless a handler has stopped it. *)
Definition after (fr fr' : Frame) : Prop :=
  has_driver fr' /\ (self fr' = self fr \/ running (self fr') = false).

(** A statement that cannot raise while the client has a driver. *)
Definition safe (m : M unit) : Prop :=
  forall fr, has_driver fr -> exists fr', m fr = (fr', Ok tt) /\ after fr fr'.

(** A statement that either raises before it has changed anything or
    completes. *)
Definition guarded (m : M unit) : Prop :=
  forall fr, has_driver fr ->
    (exists e, m fr = (fr, Raise e)) \/
    (exists fr', m fr = (fr', Ok tt) /\ after fr fr').

(** Every pair carries an element and its key. *)
Definition keyed {A} (key : A -> Result N) (l : list (N * A)) : Prop :=
  Forall (fun x => key (snd x) = Ok (fst x)) l.

(* ===================================================================== *)
(** ** Vocabulary for the further properties of the locator table *)

(** The names of the class body. *)
Definition Locator_names : list string := map fst Locator_attrs.

Definition is_lower (c : ascii) : bool :=
  let n := N_of_ascii c in ((97 <=? n) && (n <=? 122))%N.

(** Some character of the name is a lower-case ASCII letter. *)
Fixpoint has_lower (s : string) : bool :=
  match s with
  | EmptyString => false
  | String c s' => is_lower c || has_lower s'
  end.

(* ===================================================================== *)
(** ** Vocabulary for the further properties of the loop *)

(** The client after the handlers of the events [evs] have run, in
    order: a handler that stops the client calls [stop()]. *)
Definition apply_handlers (c : Client) (evs : list Event) : Client :=
  fold_left (fun c e => if handlers c e then (stop c).1 else c) evs c.

(** The frame after the events [evs] were fired and the two local
    variables were left at [st] and [qr]. *)
Definition advance (evs : list Event) (st : option State) (qr : option bytes)
    (fr : Frame) : Frame :=
  {| self := apply_handlers (self fr) evs; state := st;
     qr_binary := qr; fired := fired fr ++ evs |}.

(** The frame [main_loop] starts from, before [on_start] (lines 89-93). *)
Definition boot (c : Client) : Frame :=
  {| self := {| running := running c; quited := quited c;
                _driver := Some (_init_driver c); handlers := handlers c |};
     state := None; qr_binary := None; fired := [] |}.

(** The payload a QR event carries. *)
Definition qr_payload (e : Event) : option bytes :=
  match e with
  | on_qr qr | on_qr_change qr => Some qr
  | _ => None
  end.

(** No two neighbours of the list are equal. *)
Fixpoint no_stutter (l : list State) : Prop :=
  match l with
  | a :: (b :: _) as rest => a <> b /\ no_stutter rest
  | _ => True
  end.

(** The shapes a completed iteration takes, from the values [st] and
    [qr] of the local variables [state] and [qr_binary]: the events it
    fires and the values it leaves in the two variables. *)
Inductive tick_shape (L : gmap string locator) (p : Page)
    (st : option State) (qr : option bytes)
  : list Event -> option State -> option bytes -> Prop :=
| tick_indeterminate :
    _get_state L p = Ok None ->
    tick_shape L p st qr [] st qr
| tick_enter (s : State) (e : Event) :
    _get_state L p = Ok (Some s) ->
    Some s <> st ->
    entered e = Some s ->
    (forall q, e = on_qr q -> extract_qr L p = Ok q) ->
    tick_shape L p st qr [e; on_tick] (Some s)
      (match qr_payload e with Some q => Some q | None => qr end)
| tick_qr_change (q : bytes) :
    _get_state L p = Ok (Some QR_AUTH) ->
    st = Some QR_AUTH ->
    extract_qr L p = Ok q ->
    Some q <> qr ->
    tick_shape L p st qr [on_qr_change q; on_tick] st (Some q)
| tick_steady (s : State) (chats : list SearchResult) :
    _get_state L p = Ok (Some s) ->
    st = Some s ->
    (s <> LOGGED_IN -> chats = []) ->
    (s = LOGGED_IN -> unread_scan L p = Ok chats) ->
    tick_shape L p st qr (map on_unread_chat chats ++ [on_tick]) st qr.

(** The classifier answers [None] on the page. *)
Definition indeterminate (L : gmap string locator) (p : Page) : bool :=
  match _get_state L p with
  | Ok None => true
  | _ => false
  end.

(* ===================================================================== *)
(** ** Vocabulary for the further properties of the search *)

(** Some character of the string is a decimal digit. *)
Fixpoint has_digit (s : string) : bool :=
  match s with
  | EmptyString => false
  | String c s' => is_digit c || has_digit s'
  end.

(** Every character of the string is a decimal digit. *)
Fixpoint all_digits (s : string) : bool :=
  match s with
  | EmptyString => true
  | String c s' => is_digit c && all_digits s'
  end.

(** The key of an item whose key can be computed. *)
Definition key_value {A} (key : A -> Result N) (x : A) : N :=
  match key x with
  | Ok k => k
  | Raise _ => 0%N
  end.

(* ===================================================================== *)
(** ** [client.py]: the query surface *)

(** A key of [send_keys]: a text, or one of the three members of [Keys]
    the client uses. *)
Inductive Key : Type := Text (s : string) | DOWN | RETURN | ESCAPE.

(** What the client does to the browser, as far as the page can tell:
    - [ClickAt e x y] is
      [ActionChains(driver).move_to_element_with_offset(e, x, y).click().perform()];
    - [Click e] is [e.click()];
    - [SendKeys keys] is [driver.switch_to.active_element.send_keys( *keys)];
    - [Sleep] is [time.sleep(sleep)]. *)
Inductive Action : Type :=
| ClickAt (e : Element) (xoffset yoffset : Z)
| Click (e : Element)
| SendKeys (keys : list Key)
| Sleep.

(** The browser during a query: what it answers depends on what was done
    to it so far. [await_exists] is the helper of [redshot.utils] that
    waits for a locator and returns the elements found; [accepts] tells
    whether an action goes through or raises. *)
Record Browser : Type := {
  lookup_all : list Action -> locator -> Result (list Element);
  lookup_in : list Action -> Element -> locator -> Result (list Element);
  await_exists : list Action -> locator -> Result (list Element);
  accepts : list Action -> Action -> Result unit
}.

Module Query.

(** A statement of a query: it extends the list of the actions done, and
    returns or raises. *)
Definition Q (A : Type) : Type := list Action -> list Action * Result A.

Definition ret {A} (a : A) : Q A := fun log => (log, Ok a).

Definition bind {A B} (m : Q A) (k : A -> Q B) : Q B :=
  fun log =>
    match m log with
    | (log', Ok a) => k a log'
    | (log', Raise e) => (log', Raise e)
    end.

(** A read: the answer depends on the actions done, and changes
    nothing. *)
Definition ask {A} (answer : list Action -> Result A) : Q A :=
  fun log => (log, answer log).

(** An action: recorded when it goes through. *)
Definition perform (b : Browser) (a : Action) : Q unit :=
  fun log =>
    match accepts b log a with
    | Ok _ => (log ++ [a], Ok tt)
    | Raise e => (log, Raise e)
    end.

(** [time.sleep]: always goes through. *)
Definition sleep : Q unit := fun log => (log ++ [Sleep], Ok tt).

(** [elements[0]] *)
Definition first {A} (elements : list A) : Result A :=
  match elements with
  | e :: _ => Ok e
  | [] => Raise IndexError
  end.

Declare Scope query_scope.
Delimit Scope query_scope with query.
Notation "'let!' x ':=' m 'in' k" := (bind m (fun x => k))
  (at level 10, x name, m at level 100, k at level 200) : query_scope.
Notation "m ';;' k" := (bind m (fun _ => k))
  (at level 100, k at level 200, right associativity) : query_scope.

Section Client.

Variable L : gmap string locator.
Variable b : Browser.

(** [driver.find_elements( *Locator.NAME)] *)
Definition find_elements_by (name : string) : Q (list Element) :=
  (let! l := ask (fun _ => getattr L name) in
   ask (fun log => lookup_all b log l))%query.

(** [utils.await_exists(driver, Locator.NAME)] *)
Definition await (name : string) : Q (list Element) :=
  (let! l := ask (fun _ => getattr L name) in
   ask (fun log => await_exists b log l))%query.

(** [Client._click_search_button], lines 207-227. *)
Definition _click_search_button : Q bool :=
  (let! inactive_search_button := find_elements_by "SEARCH_BUTTON_INACTIVE" in
   match inactive_search_button with
   | button :: _ => perform b (ClickAt button 10 10) ;; ret true
   | [] =>
       let! active_search_button := find_elements_by "SEARCH_BUTTON_ACTIVE" in
       match active_search_button with
       | button :: _ => perform b (ClickAt button 10 10) ;; ret true
       | [] => ret false
       end
   end)%query.


(** [Client.search], lines 312-357. The loop over the sorted items is
    [search_from]. *)
Definition search (parse : Element -> option string -> option SearchResult)
    (search_field : string) : Q (list SearchResult) :=
  (_click_search_button ;;
   perform b (SendKeys [Text search_field]) ;;
   await "CANCEL_SEARCH_BUTTON" ;;
   let! containers := find_elements_by "SEARCH_RESULT" in
   let! result := ask (fun _ => first containers) in
   sleep ;;
   let! result_items :=
     (let! l := ask (fun _ => getattr L "SEARCH_ITEM") in
      ask (fun log => lookup_in b log result l)) in
   let! results := ask (fun _ => search_from parse result_items) in
   _click_search_button ;;
   ret results)%query.

Section Messages.

(** [utils.parse_message(driver, element)], not under src/: its result
    type and its answers are parameters. *)
Variable Message : Type.
Variable parse_message : list Action -> Element -> Result Message.



End Messages.
End Client.
End Query.

(** A browser for the examples: the search button is the inactive one
    until something was done, the active one after; the search shows one
    results container holding [items]; the chat input box is there when
    [box] is set. *)
Definition sample_browser (items : list Element) (box : bool) : Browser :=
  {| lookup_all := fun log l =>
       if names ["SEARCH_BUTTON_INACTIVE"] l then
         Ok (if log is [] then [Elem "button" [] "none" "search" []] else [])
       else if names ["SEARCH_BUTTON_ACTIVE"] l then
         Ok (if log is [] then [] else [Elem "button" [] "none" "back" []])
       else if names ["SEARCH_RESULT"] l then Ok [Elem "div" [] "none" "" items]
       else Ok [];
     lookup_in := fun _ e _ => Ok (children e);
     await_exists := fun _ l =>
       if names ["CHAT_INPUT_BOX"] l then
         Ok (if box then [Elem "div" [] "none" "" []] else [])
       else Ok [Elem "div" [] "none" "" items];
     accepts := fun _ _ => Ok tt |}.

(* ===================================================================== *)
(** * Properties *)

(** ** The definitions at work *)

Example upper_qr : upper "qr_Code" = "QR_CODE".
Proof. reflexivity. Qed.

Example get_qr : get_locator "qr_code" Locator
  = Some (XPATH, "//canvas[@aria-label='Scan this QR code to link a device!']").
Proof. vm_compute. reflexivity. Qed.

Example set_then_get :
  get_locator "Qr_Code" (set_locator "qr_code" ("id", "qr") Locator).1 = Some ("id", "qr").
Proof. vm_compute. reflexivity. Qed.

Example findall_matrix : findall_digits "matrix(1, 0, 0, 1, 0, 72)" = ["1"; "0"; "0"; "1"; "0"; "72"].
Proof. reflexivity. Qed.

Example key_translate : search_sort_key (Elem "div" [] "translateY(120px)" "" []) = Ok 120%N.
Proof. reflexivity. Qed.

Example key_none : search_sort_key (Elem "div" [] "none" "" []) = Raise IndexError.
Proof. reflexivity. Qed.

Example search_mixed :
  search [item "216" "Carol"; header "0" "CHATS"; item "36" "Bob";
          header "72" "CONTACTS"; item "1000" "Alice"]
  = Ok [ {| category := Some "CHATS"; title := "Bob"; unreadCount := None |};
         {| category := Some "CONTACTS"; title := "Carol"; unreadCount := None |};
         {| category := Some "CONTACTS"; title := "Alice"; unreadCount := None |} ].
Proof. vm_compute. reflexivity. Qed.

Example run_login :
  let '(fr, r) := run Locator
      [blank_page; auth_page; qr_page image1; qr_page image1; qr_gone_page;
       qr_page image2; blank_page; loading_page;
       logged_in_page []; logged_in_page [item "0" "Alice"]; blank_page]
      (__init__ passive) in
  r = Ok tt /\
  fired fr =
    [on_start; on_auth; on_tick; on_qr image1; on_tick; on_tick; on_tick;
     on_qr_change image2; on_tick; on_loading true; on_tick;
     on_logged_in; on_tick;
     on_unread_chat {| category := Some "CHATS"; title := "Alice"; unreadCount := None |};
     on_tick] /\
  state fr = Some LOGGED_IN /\ running (self fr) = true.
Proof. vm_compute. done. Qed.

Example run_stop_in_handler :
  let '(fr, r) := run Locator
      [logged_in_page []; logged_in_page []; auth_page]
      (__init__ stop_when_logged_in) in
  r = Ok tt /\
  fired fr = [on_start; on_logged_in; on_tick] /\
  self fr = {| running := false; quited := true;
               _driver := Some {| quit_calls := 1 |};
               handlers := stop_when_logged_in |}.
Proof. vm_compute. done. Qed.

(** ** The locator table *)

Lemma hasattr_true cls name : hasattr cls name = true <-> is_Some (cls !! name).
Proof. unfold hasattr. by rewrite bool_decide_eq_true. Qed.

Lemma hasattr_false cls name : hasattr cls name = false <-> cls !! name = None.
Proof.
  unfold hasattr. rewrite bool_decide_eq_false.
  by rewrite eq_None_not_Some.
Qed.

(** [set_locator] never adds or removes an attribute. *)
Lemma set_locator_dom name loc cls : dom (set_locator name loc cls).1 = dom cls.
Proof.
  unfold set_locator. destruct (hasattr cls (upper name)) eqn:E; [|done].
  apply hasattr_true in E. simpl. rewrite dom_insert_L.
  apply elem_of_dom in E. apply subseteq_union_1_L. by apply singleton_subseteq_l.
Qed.

(** C9. For every name whose upper-cased form is a defined attribute,
    [set_locator name loc] returns [True], [get_locator name] then
    returns exactly [loc], and every other entry of the table is
    unchanged; for every name whose upper-cased form is not defined,
    [set_locator] returns [False] and leaves the whole table unchanged,
    and [get_locator] returns [None]. *)
Theorem set_locator_get_locator (name : string) (loc : locator)
    (cls : gmap string locator) :
  (is_Some (cls !! upper name) ->
     (set_locator name loc cls).2 = true /\
     get_locator name (set_locator name loc cls).1 = Some loc /\
     forall other : string, other <> upper name ->
       (set_locator name loc cls).1 !! other = cls !! other) /\
  (cls !! upper name = None ->
     set_locator name loc cls = (cls, false) /\
     get_locator name cls = None).
Proof.
  split.
  - intros Hdef. apply hasattr_true in Hdef.
    unfold set_locator, get_locator. rewrite Hdef. simpl.
    split; [done|]. split.
    + apply lookup_insert_eq.
    + intros other Hne. by apply lookup_insert_ne.
  - intros Hundef. unfold set_locator, get_locator.
    apply hasattr_false in Hundef as Hno. by rewrite Hno.
Qed.

Lemma set_locator_get_locator_witness :
  ((set_locator "qr_code" ("id", "qr") Locator).2 = true /\
   get_locator "qr_code" (set_locator "qr_code" ("id", "qr") Locator).1
     = Some ("id", "qr") /\
   forall other : string, other <> upper "qr_code" ->
     (set_locator "qr_code" ("id", "qr") Locator).1 !! other = Locator !! other) /\
  (set_locator "set_locator" ("id", "qr") Locator = (Locator, false) /\
   get_locator "set_locator" Locator = None).
Proof.
  split.
  - apply (proj1 (set_locator_get_locator "qr_code" ("id", "qr") Locator)).
    vm_compute. eauto.
  - apply (proj2 (set_locator_get_locator "set_locator" ("id", "qr") Locator)).
    vm_compute. reflexivity.
Defined.

(** ** [stop] *)

Lemma stop_Some c d :
  _driver c = Some d ->
  stop c = ({| running := false; quited := true;
               _driver := Some (quit d); handlers := handlers c |}, Ok tt).
Proof. intros H. unfold stop. simpl. by rewrite H. Qed.

Lemma stop_None c :
  _driver c = None ->
  stop c = ({| running := false; quited := true;
               _driver := None; handlers := handlers c |}, Raise AttributeError).
Proof. intros H. unfold stop. simpl. by rewrite H. Qed.

(** C10. [stop()] on a client whose driver is still [None] (as
    [__init__] leaves it, before the loop has created the session)
    raises; [stop()] returns without raising exactly when the driver was
    initialized. *)
Theorem stop_before_init_raises (c : Client) :
  (_driver c = None -> (stop c).2 = Raise AttributeError) /\
  (forall h, (stop (__init__ h)).2 = Raise AttributeError) /\
  ((stop c).2 = Ok tt <-> is_Some (_driver c)).
Proof.
  split; [|split].
  - intros H. by rewrite stop_None.
  - intros h. reflexivity.
  - destruct (_driver c) as [d|] eqn:E.
    + rewrite (stop_Some c d E). simpl. split; eauto.
    + rewrite (stop_None c E). simpl. split; [done|]. by intros [? ?].
Qed.

Lemma stop_before_init_raises_witness :
  (stop (__init__ (fun _ => false))).2 = Raise AttributeError.
Proof.
  apply (proj1 (stop_before_init_raises (__init__ (fun _ => false)))).
  reflexivity.
Defined.

(** ** The state classifier *)

(** C6. [_get_state] probes LOGGED_IN, LOADING, QR_CODE and AUTH in this
    order and answers with the first state whose locator is present,
    without consulting the later ones; with none of the four present it
    answers [None]. *)
Theorem _get_state_order (L : gmap string locator) (p : Page)
    (logged_in loading qr_code auth : locator) :
  L !! "LOGGED_IN" = Some logged_in ->
  L !! "LOADING" = Some loading ->
  L !! "QR_CODE" = Some qr_code ->
  L !! "AUTH" = Some auth ->
  (is_present p logged_in = Ok true -> _get_state L p = Ok (Some LOGGED_IN)) /\
  (is_present p logged_in = Ok false -> is_present p loading = Ok true ->
     _get_state L p = Ok (Some LOADING)) /\
  (is_present p logged_in = Ok false -> is_present p loading = Ok false ->
   is_present p qr_code = Ok true ->
     _get_state L p = Ok (Some QR_AUTH)) /\
  (is_present p logged_in = Ok false -> is_present p loading = Ok false ->
   is_present p qr_code = Ok false -> is_present p auth = Ok true ->
     _get_state L p = Ok (Some AUTH)) /\
  (is_present p logged_in = Ok false -> is_present p loading = Ok false ->
   is_present p qr_code = Ok false -> is_present p auth = Ok false ->
     _get_state L p = Ok None).
Proof.
  intros H1 H2 H3 H4. unfold _get_state, getattr.
  rewrite H1, H2, H3, H4. simpl.
  repeat split.
  - by intros ->.
  - by intros -> ->.
  - by intros -> -> ->.
  - by intros -> -> -> ->.
  - by intros -> -> -> ->.
Qed.

Lemma _get_state_order_witness :
  _get_state Locator (qr_page image1) = Ok (Some QR_AUTH) /\
  _get_state Locator blank_page = Ok None.
Proof.
  split.
  - apply (_get_state_order Locator (qr_page image1)
             (XPATH, "//div[@title='Chats']")
             (XPATH, "//div[//span[@data-icon='lock'] and contains(text(), 'End-to-end encrypted') and //progress]")
             (XPATH, "//canvas[@aria-label='Scan this QR code to link a device!']")
             (XPATH, "//div[contains(text(), 'Use WhatsApp on your computer')]"));
      vm_compute; reflexivity.
  - apply (_get_state_order Locator blank_page
             (XPATH, "//div[@title='Chats']")
             (XPATH, "//div[//span[@data-icon='lock'] and contains(text(), 'End-to-end encrypted') and //progress]")
             (XPATH, "//canvas[@aria-label='Scan this QR code to link a device!']")
             (XPATH, "//div[contains(text(), 'Use WhatsApp on your computer')]"));
      vm_compute; reflexivity.
Defined.

(* ===================================================================== *)
(** ** The poll loop: what one statement does to the frame *)

Lemma bind_inv {A B} (m : M A) (k : A -> M B) fr fr' r :
  bind m k fr = (fr', r) ->
  (exists e, m fr = (fr', Raise e) /\ r = Raise e) \/
  (exists a fr1, m fr = (fr1, Ok a) /\ k a fr1 = (fr', r)).
Proof.
  unfold bind. destruct (m fr) as [fr1 [a|e]] eqn:E.
  - intros H. right. eauto.
  - intros [= <- <-]. left. eauto.
Qed.

Lemma call_inv {A} (x : Result A) fr fr' r : call x fr = (fr', r) -> fr' = fr /\ r = x.
Proof. by intros [= <- <-]. Qed.

Lemma trigger_event_eq e fr :
  trigger_event e fr =
    let fr1 := {| self := self fr; state := state fr;
                  qr_binary := qr_binary fr; fired := fired fr ++ [e] |} in
    if handlers (self fr) e then self_stop fr1 else (fr1, Ok tt).
Proof. reflexivity. Qed.

(** A triggered event is appended to the trace and leaves the two local
    variables alone; the client changes only if the handler stops it. *)
Lemma trigger_event_inv e fr fr' r :
  trigger_event e fr = (fr', r) ->
  state fr' = state fr /\ qr_binary fr' = qr_binary fr /\
  fired fr' = fired fr ++ [e] /\
  ((handlers (self fr) e = false /\ self fr' = self fr /\ r = Ok tt) \/
   (handlers (self fr) e = true /\ stop (self fr) = (self fr', r))).
Proof.
  rewrite trigger_event_eq. simpl. destruct (handlers (self fr) e) eqn:Hh.
  - unfold self_stop. simpl. destruct (stop (self fr)) as [c r0] eqn:Hs.
    intros [= <- <-]. simpl. auto 10.
  - intros [= <- <-]. simpl. auto 10.
Qed.

(** With a driver in place no handler can make [trigger_event] raise. *)
Lemma trigger_event_total e fr :
  has_driver fr ->
  exists c', trigger_event e fr =
      ({| self := c'; state := state fr; qr_binary := qr_binary fr;
          fired := fired fr ++ [e] |}, Ok tt) /\
    is_Some (_driver c') /\
    ((c' = self fr /\ handlers (self fr) e = false) \/
     (running c' = false /\ handlers (self fr) e = true)).
Proof.
  intros [d Hd]. rewrite trigger_event_eq. simpl.
  destruct (handlers (self fr) e) eqn:Hh.
  - unfold self_stop. simpl. rewrite (stop_Some _ _ Hd).
    eexists. split; [reflexivity|]. simpl. split; eauto.
  - exists (self fr). split; [reflexivity|]. split; [by exists d | eauto].
Qed.

Lemma trigger_unread_inv chats fr fr' r :
  trigger_unread chats fr = (fr', r) ->
  state fr' = state fr /\ qr_binary fr' = qr_binary fr /\
  exists evs, fired fr' = fired fr ++ evs /\
    Forall (fun e => entered e = None /\ is_tick e = false) evs.
Proof.
  revert fr. induction chats as [|chat rest IH]; intros fr; simpl.
  - intros [= <- <-]. repeat split. exists []. by rewrite app_nil_r.
  - intros H. apply bind_inv in H as [(e & H & ->)|(a & fr1 & H & Hk)].
    + apply trigger_event_inv in H as (Hs & Hq & Hf & _).
      repeat split; try done. exists [on_unread_chat chat]. split; [done|].
      by repeat constructor.
    + apply trigger_event_inv in H as (Hs & Hq & Hf & _).
      apply IH in Hk as (Hs' & Hq' & evs & Hf' & Hall).
      split; [congruence|]. split; [congruence|].
      exists (on_unread_chat chat :: evs). split.
      * rewrite Hf', Hf. by rewrite <- app_assoc.
      * constructor; [done|exact Hall].
Qed.

Lemma trigger_unread_total chats fr :
  has_driver fr ->
  exists c', trigger_unread chats fr =
      ({| self := c'; state := state fr; qr_binary := qr_binary fr;
          fired := fired fr ++ map on_unread_chat chats |}, Ok tt) /\
    is_Some (_driver c') /\ (c' = self fr \/ running c' = false).
Proof.
  revert fr. induction chats as [|chat rest IH]; intros fr Hd; simpl.
  - exists (self fr). rewrite app_nil_r. by destruct fr; auto.
  - destruct (trigger_event_total (on_unread_chat chat) fr Hd)
      as (c1 & H1 & Hd1 & Hc1).
    unfold bind at 1. rewrite H1.
    destruct (IH {| self := c1; state := state fr; qr_binary := qr_binary fr;
                    fired := fired fr ++ [on_unread_chat chat] |} Hd1)
      as (c2 & H2 & Hd2 & Hc2). simpl in *.
    exists c2. rewrite H2. rewrite <- app_assoc. simpl.
    split; [done|]. split; [done|].
    destruct Hc2 as [->|?]; [|by right].
    destruct Hc1 as [[-> _]|[? _]]; auto.
Qed.

(** A transition that completes fires exactly the entry event of the
    new state and stores the new state. *)
Lemma transition_inv L p s fr fr' :
  transition L p s fr = (fr', Ok tt) ->
  state fr' = Some s /\
  exists e, entered e = Some s /\ fired fr' = fired fr ++ [e] /\
    match s with
    | QR_AUTH => exists qr, extract_qr L p = Ok qr /\ e = on_qr qr /\
                            qr_binary fr' = Some qr
    | _ => qr_binary fr' = qr_binary fr
    end.
Proof.
  unfold transition. intros H.
  apply bind_inv in H as [(e & _ & [=])|(a & fr1 & H & Hset)].
  injection Hset as <-. simpl. split; [done|].
  destruct s.
  - apply trigger_event_inv in H as (_ & Hq & Hf & _). by exists on_auth.
  - apply bind_inv in H as [(e & _ & [=])|(qr & fr2 & Hc & H)].
    apply call_inv in Hc as [-> Hx].
    apply bind_inv in H as [(e & _ & [=])|([] & fr3 & Hset & H)].
    injection Hset as <-.
    apply trigger_event_inv in H as (_ & Hq & Hf & _). simpl in *.
    exists (on_qr qr). eauto 10.
  - apply bind_inv in H as [(e & _ & [=])|(b & fr2 & Hc & H)].
    apply call_inv in Hc as [-> Hx].
    apply trigger_event_inv in H as (_ & Hq & Hf & _). by exists (on_loading b).
  - apply trigger_event_inv in H as (_ & Hq & Hf & _). by exists on_logged_in.
Qed.

(** A steady tick never fires a state-entry event or [on_tick], and
    never changes the stored state. *)
Lemma steady_inv L p s fr fr' r :
  steady L p s fr = (fr', r) ->
  state fr' = state fr /\
  exists evs, fired fr' = fired fr ++ evs /\
    Forall (fun e => entered e = None /\ is_tick e = false) evs.
Proof.
  assert (Hnil : forall fr0 : Frame, exists evs, fired fr0 = fired fr0 ++ evs /\
     Forall (fun e => entered e = None /\ is_tick e = false) evs).
  { intros fr0. exists []. by rewrite app_nil_r. }
  unfold steady. destruct (decide (s = QR_AUTH)) as [->|Hne].
  - unfold try_except.
    destruct (bind _ _ fr) as [fr1 r1] eqn:Hbody.
    assert (Hgoal : state fr1 = state fr /\
      exists evs, fired fr1 = fired fr ++ evs /\
        Forall (fun e => entered e = None /\ is_tick e = false) evs).
    { apply bind_inv in Hbody as [(e & Hc & ->)|(qr & fr2 & Hc & H)];
        apply call_inv in Hc as [-> Hx]; [by auto|].
      destruct (decide (Some qr <> qr_binary fr)).
      - apply bind_inv in H as [(e & Hset & _)|([] & fr3 & Hset & H)];
          [by injection Hset|].
        injection Hset as <-.
        apply trigger_event_inv in H as (Hs & _ & Hf & _). simpl in *.
        split; [done|]. exists [on_qr_change qr]. split; [done|].
        by repeat constructor.
      - injection H as <- <-. auto. }
    destruct r1 as [[]|e].
    + by intros [= <- <-].
    + destruct (qr_race e); by intros [= <- <-].
  - destruct (decide (s = LOGGED_IN)) as [->|Hne2].
    + intros H. apply bind_inv in H as [(e & Hc & ->)|(chats & fr2 & Hc & H)];
        apply call_inv in Hc as [-> Hx]; [by auto|].
      apply trigger_unread_inv in H as (Hs & _ & evs & Hf & Hall). eauto.
    + intros [= <- <-]. auto.
Qed.

(** One completed iteration, by the classifier output. *)
Lemma iteration_inv L p fr fr' :
  iteration L p fr = (fr', Ok tt) ->
  _get_state L p = Ok (classified L p) /\
  match classified L p with
  | None => fr' = fr
  | Some s =>
      if decide (Some s = state fr) then
        state fr' = state fr /\
        exists evs, fired fr' = fired fr ++ evs ++ [on_tick] /\
          Forall (fun e => entered e = None /\ is_tick e = false) evs
      else
        state fr' = Some s /\
        exists e, entered e = Some s /\ fired fr' = fired fr ++ [e; on_tick]
  end.
Proof.
  unfold iteration, classified. intros H.
  apply bind_inv in H as [(e & _ & [=])|(cs & fr1 & Hc & H)].
  apply call_inv in Hc as [-> Hx]. rewrite <- Hx. split; [done|].
  destruct cs as [s|]; [|by injection H as <-].
  apply bind_inv in H as [(e & _ & [=])|([] & fr1 & H & Ht)].
  apply trigger_event_inv in Ht as (Hs & _ & Hf & _).
  destruct (decide (Some s = state fr)) as [Heq|Hne].
  - destruct (decide (Some s <> state fr)) as [?|_]; [done|].
    apply steady_inv in H as (Hs1 & evs & Hf1 & Hall).
    split; [congruence|]. exists evs. split; [|done].
    rewrite Hf, Hf1. by rewrite <- app_assoc.
  - destruct (decide (Some s <> state fr)) as [_|?]; [|done].
    apply transition_inv in H as (Hs1 & e & He & Hf1 & _).
    split; [congruence|]. exists e. split; [done|].
    rewrite Hf, Hf1. by rewrite <- app_assoc.
Qed.

Lemma filter_entry_quiet evs :
  Forall (fun e => entered e = None /\ is_tick e = false) evs ->
  List.filter is_state_entry (evs ++ [on_tick]) = [].
Proof.
  induction 1 as [|e evs [He _] _ IH]; [done|].
  simpl. unfold is_state_entry at 1. rewrite He. simpl. exact IH.
Qed.

Lemma iteration_state L p fr fr' :
  iteration L p fr = (fr', Ok tt) ->
  state fr' = preceding_state (state fr) [classified L p].
Proof.
  intros H. apply iteration_inv in H as [_ H].
  destruct (classified L p) as [s|]; simpl; [|by subst].
  destruct (decide (Some s = state fr)) as [Heq|Hne].
  - destruct H as [-> _]. done.
  - by destruct H as [-> _].
Qed.

Lemma preceding_state_cons prev c rest :
  preceding_state prev (c :: rest)
  = preceding_state (preceding_state prev [c]) rest.
Proof. by destruct c. Qed.

(** While the loop keeps running, the stored state is the last
    classifier output that was not [None]. *)
Lemma while_running_state L pages fr fr' :
  while_running L pages fr = (fr', Ok tt) ->
  running (self fr') = true ->
  state fr' = preceding_state (state fr) (map (classified L) pages).
Proof.
  revert fr. induction pages as [|p rest IH]; intros fr; cbn [while_running map].
  - destruct (running (self fr)); by intros [= <-].
  - destruct (running (self fr)) eqn:Hrun.
    + intros H Hrun'.
      apply bind_inv in H as [(e & _ & [=])|([] & fr1 & Hit & H)].
      rewrite preceding_state_cons, <- (iteration_state _ _ _ _ Hit).
      by apply IH.
    + intros [= <-] ?. congruence.
Qed.

(** C1. After any number of completed iterations, with the loop still
    running, the stored state is the last classifier output that was not
    Indeterminate. On the next completed iteration a state-entry event
    fires if and only if the classified state is not Indeterminate and
    differs from that state; then exactly one fires, the one of the new
    state, and the stored state becomes the new state. An Indeterminate
    output fires nothing and leaves the stored state alone. *)
Theorem state_entry_iff_transition (L : gmap string locator)
    (pages : list Page) (p : Page) (c : Client) (fr1 fr2 : Frame) :
  main_loop L pages c = (fr1, Ok tt) ->
  running (self fr1) = true ->
  iteration L p fr1 = (fr2, Ok tt) ->
  let prev := preceding_state None (map (classified L) pages) in
  state fr1 = prev /\
  _get_state L p = Ok (classified L p) /\
  exists new, fired fr2 = fired fr1 ++ new /\
    match classified L p with
    | None => new = [] /\ state fr2 = prev
    | Some s =>
        if decide (Some s = prev) then
          List.filter is_state_entry new = [] /\ state fr2 = prev
        else
          (exists e, List.filter is_state_entry new = [e] /\ entered e = Some s) /\
          state fr2 = Some s
    end.
Proof.
  intros Hloop Hrun Hit prev.
  assert (Hprev : state fr1 = prev).
  { unfold main_loop in Hloop.
    apply bind_inv in Hloop as [(e & _ & [=])|([] & fr0 & Hstart & Hloop)].
    apply trigger_event_inv in Hstart as (Hs & _).
    rewrite (while_running_state _ _ _ _ Hloop Hrun). by rewrite Hs. }
  split; [done|].
  apply iteration_inv in Hit as [Hget Hit]. split; [done|].
  rewrite <- Hprev. destruct (classified L p) as [s|].
  - destruct (decide (Some s = state fr1)) as [Heq|Hne].
    + destruct Hit as (Hs & evs & Hf & Hall).
      exists (evs ++ [on_tick]). split; [done|]. split; [|done].
      by apply filter_entry_quiet.
    + destruct Hit as (Hs & e & He & Hf).
      exists [e; on_tick]. split; [done|]. split; [|done].
      exists e. split; [|done]. simpl. unfold is_state_entry at 1.
      by rewrite He.
  - subst fr2. exists []. by rewrite app_nil_r.
Qed.

Lemma state_entry_iff_transition_witness :
  let fr1 := (main_loop Locator [blank_page; auth_page; blank_page] (started passive)).1 in
  let fr2 := (iteration Locator (qr_page image1) fr1).1 in
  state fr1 = Some AUTH /\
  exists new, fired fr2 = fired fr1 ++ new /\
    (exists e, List.filter is_state_entry new = [e] /\ entered e = Some QR_AUTH) /\
    state fr2 = Some QR_AUTH.
Proof.
  intros fr1 fr2.
  assert (H1 : main_loop Locator [blank_page; auth_page; blank_page] (started passive)
               = (fr1, Ok tt)) by (vm_compute; reflexivity).
  assert (H2 : running (self fr1) = true) by (vm_compute; reflexivity).
  assert (H3 : iteration Locator (qr_page image1) fr1 = (fr2, Ok tt))
    by (vm_compute; reflexivity).
  destruct (state_entry_iff_transition _ _ _ _ _ _ H1 H2 H3) as (Hs & _ & new & Hf & Hm).
  split; [exact Hs|]. exists new. split; [exact Hf|]. exact Hm.
Defined.

(* ===================================================================== *)
(** ** [on_tick] *)

Lemma while_running_indeterminate L pages fr :
  Forall (fun p => _get_state L p = Ok None) pages ->
  while_running L pages fr = (fr, Ok tt).
Proof.
  induction 1 as [|p rest Hp _ IH]; simpl.
  - by destruct (running (self fr)).
  - destruct (running (self fr)); [|done].
    unfold bind at 1. unfold iteration, bind, call. rewrite Hp. simpl. exact IH.
Qed.

(** C2. An iteration that classifies a state and completes fires
    [on_tick] exactly once, after the state-specific events. An
    iteration whose classifier output is Indeterminate fires nothing,
    [on_tick] included: over any number of such iterations the loop
    fires [on_start] and no [on_tick] at all. *)
Theorem on_tick_skipped_when_indeterminate (L : gmap string locator) :
  (forall (p : Page) (s : State) (fr fr' : Frame),
     _get_state L p = Ok (Some s) ->
     iteration L p fr = (fr', Ok tt) ->
     exists evs, fired fr' = fired fr ++ evs ++ [on_tick] /\
       Forall (fun e => is_tick e = false) evs) /\
  (forall (pages : list Page) (c : Client),
     Forall (fun p => _get_state L p = Ok None) pages ->
     handlers c on_start = false ->
     exists fr, run L pages c = (fr, Ok tt) /\
       running (self fr) = true /\
       fired fr = [on_start] /\
       length (List.filter is_tick (fired fr)) = 0 /\
       List.filter is_state_entry (fired fr) = []).
Proof.
  split.
  - intros p s fr fr' Hget Hit.
    apply iteration_inv in Hit as [_ Hit].
    unfold classified in Hit. rewrite Hget in Hit.
    destruct (decide (Some s = state fr)).
    + destruct Hit as (_ & evs & Hf & Hall). exists evs. split; [done|].
      eapply Forall_impl; [exact Hall|]. by intros ? [_ ?].
    + destruct Hit as (_ & e & He & Hf). exists [e]. split; [done|].
      constructor; [|constructor]. by destruct e.
  - intros pages c Hall Hh. unfold run, main_loop.
    unfold bind. rewrite trigger_event_eq. simpl. rewrite Hh.
    rewrite (while_running_indeterminate _ _ _ Hall). eexists.
    split; [reflexivity|]. by simpl.
Qed.

Lemma on_tick_skipped_when_indeterminate_witness :
  (exists evs,
     fired (iteration Locator auth_page
              {| self := started passive; state := None;
                 qr_binary := None; fired := [on_start] |}).1
     = [on_start] ++ evs ++ [on_tick] /\
     Forall (fun e => is_tick e = false) evs) /\
  (exists fr, run Locator [blank_page; blank_page; blank_page] (__init__ passive)
              = (fr, Ok tt) /\
     running (self fr) = true /\
     fired fr = [on_start] /\
     length (List.filter is_tick (fired fr)) = 0 /\
     List.filter is_state_entry (fired fr) = []).
Proof.
  split.
  - apply (proj1 (on_tick_skipped_when_indeterminate Locator) auth_page AUTH
             {| self := started passive; state := None;
                qr_binary := None; fired := [on_start] |}).
    + vm_compute. reflexivity.
    + vm_compute. reflexivity.
  - apply (proj2 (on_tick_skipped_when_indeterminate Locator)).
    + repeat constructor.
    + reflexivity.
Defined.

(* ===================================================================== *)
(** ** Which statements can raise *)

Lemma after_refl fr : has_driver fr -> after fr fr.
Proof. intros H. split; auto. Qed.

Lemma after_trans fr1 fr2 fr3 : after fr1 fr2 -> after fr2 fr3 -> after fr1 fr3.
Proof.
  intros [_ H12] [Hd H23]. split; [done|].
  destruct H23 as [->|?]; auto.
Qed.

Lemma safe_guarded m : safe m -> guarded m.
Proof. intros H fr Hd. right. by apply H. Qed.

Lemma safe_ret : safe (ret tt).
Proof. intros fr Hd. exists fr. split; [done|]. by apply after_refl. Qed.

Lemma safe_trigger_event e : safe (trigger_event e).
Proof.
  intros fr Hd. destruct (trigger_event_total e fr Hd) as (c' & H & Hd' & Hc).
  eexists. split; [exact H|]. split; [exact Hd'|]. simpl. tauto.
Qed.

Lemma safe_set_state s : safe (set_state s).
Proof. intros fr Hd. eexists. split; [reflexivity|]. split; simpl; auto. Qed.

Lemma safe_set_qr_binary qr : safe (set_qr_binary qr).
Proof. intros fr Hd. eexists. split; [reflexivity|]. split; simpl; auto. Qed.

Lemma safe_bind m (k : unit -> M unit) :
  safe m -> (forall u, safe (k u)) -> safe (bind m k).
Proof.
  intros Hm Hk fr Hd. destruct (Hm fr Hd) as (fr1 & H1 & Ha1).
  destruct (Hk tt fr1 (proj1 Ha1)) as (fr2 & H2 & Ha2).
  exists fr2. unfold bind. rewrite H1. split; [done|]. by eapply after_trans.
Qed.

Lemma safe_trigger_unread chats : safe (trigger_unread chats).
Proof.
  induction chats as [|chat rest IH]; simpl.
  - apply safe_ret.
  - apply safe_bind; [apply safe_trigger_event|done].
Qed.

Lemma safe_if (P : Frame -> Prop) `{!forall fr, Decision (P fr)} (m1 m2 : M unit) :
  safe m1 -> safe m2 -> safe (fun fr => if decide (P fr) then m1 fr else m2 fr).
Proof. intros H1 H2 fr Hd. destruct (decide (P fr)); auto. Qed.

Lemma guarded_if (P : Frame -> Prop) `{!forall fr, Decision (P fr)} (m1 m2 : M unit) :
  guarded m1 -> guarded m2 ->
  guarded (fun fr => if decide (P fr) then m1 fr else m2 fr).
Proof. intros H1 H2 fr Hd. destruct (decide (P fr)); auto. Qed.

Lemma guarded_call {A} (x : Result A) (k : A -> M unit) :
  (forall a, safe (k a)) -> guarded (bind (call x) k).
Proof.
  intros Hk fr Hd. unfold bind, call. destruct x as [a|e].
  - right. by apply Hk.
  - left. by exists e.
Qed.

Lemma guarded_bind m (k : unit -> M unit) :
  guarded m -> (forall u, safe (k u)) -> guarded (bind m k).
Proof.
  intros Hm Hk fr Hd. unfold bind.
  destruct (Hm fr Hd) as [(e & ->)|(fr1 & -> & Ha1)].
  - left. by exists e.
  - right. destruct (Hk tt fr1 (proj1 Ha1)) as (fr2 & H2 & Ha2).
    exists fr2. split; [done|]. by eapply after_trans.
Qed.

Lemma guarded_try_except body caught handler :
  guarded body -> safe handler -> guarded (try_except body caught handler).
Proof.
  intros Hb Hh fr Hd. unfold try_except.
  destruct (Hb fr Hd) as [(e & ->)|(fr1 & -> & Ha1)].
  - destruct (caught e); [right; by apply Hh | left; by exists e].
  - right. by exists fr1.
Qed.

Lemma guarded_transition L p s : guarded (transition L p s).
Proof.
  unfold transition. apply guarded_bind; [|intros; apply safe_set_state].
  destruct s.
  - apply safe_guarded, safe_trigger_event.
  - apply guarded_call. intros qr.
    apply safe_bind; [apply safe_set_qr_binary|intros; apply safe_trigger_event].
  - apply guarded_call. intros b. apply safe_trigger_event.
  - apply safe_guarded, safe_trigger_event.
Qed.

Lemma guarded_steady L p s : guarded (steady L p s).
Proof.
  unfold steady. destruct (decide (s = QR_AUTH)).
  - apply guarded_try_except; [|apply safe_ret].
    apply guarded_call. intros qr.
    apply (safe_if (fun fr => Some qr <> qr_binary fr)); [|apply safe_ret].
    apply safe_bind; [apply safe_set_qr_binary|intros; apply safe_trigger_event].
  - destruct (decide (s = LOGGED_IN)).
    + apply guarded_call. intros chats. apply safe_trigger_unread.
    + apply safe_guarded, safe_ret.
Qed.

(** An iteration that raises has fired nothing and changed nothing. *)
Lemma guarded_iteration L p : guarded (iteration L p).
Proof.
  intros fr Hd. unfold iteration. unfold bind at 1. unfold call.
  destruct (_get_state L p) as [[s|]|e].
  - revert fr Hd. apply guarded_bind; [|intros; apply safe_trigger_event].
    apply (guarded_if (fun fr => Some s <> state fr));
      [apply guarded_transition|apply guarded_steady].
  - right. exists fr. split; [done|]. by apply after_refl.
  - left. by exists e.
Qed.

(** A loop that ends by an exception was never stopped: the client is
    the one it started with, still flagged as running. *)
Lemma while_running_raise L pages fr fr' e :
  has_driver fr ->
  while_running L pages fr = (fr', Raise e) ->
  self fr' = self fr /\ running (self fr) = true.
Proof.
  revert fr. induction pages as [|p rest IH]; intros fr Hd; simpl.
  - by destruct (running (self fr)).
  - destruct (running (self fr)) eqn:Hrun; [|done].
    unfold bind. destruct (guarded_iteration L p fr Hd) as [(e1 & ->)|(fr1 & -> & Ha)].
    + by intros [= <- _].
    + intros H. apply IH in H as [Hs Hr]; [|exact (proj1 Ha)].
      destruct Ha as [_ [Heq|Hstop]]; [|congruence].
      split; [congruence|done].
Qed.

(* ===================================================================== *)
(** ** Releasing the session *)

(** Two calls of [stop()] in succession call [quit()] on the session
    twice, and a loop that ends by an exception leaves the session
    unreleased. *)
Lemma stop_twice_releases_twice :
  (stop (started passive)).2 = Ok tt /\
  (stop (stop (started passive)).1).2 = Ok tt /\
  (exists d, _driver (stop (stop (started passive)).1).1 = Some d /\
             ~ quit_calls d <= 1) /\
  (exists fr, run Locator [qr_gone_page] (__init__ passive)
                = (fr, Raise NoSuchElementException) /\
     _driver (self fr) = Some {| quit_calls := 0 |}).
Proof.
  split; [reflexivity|]. split; [reflexivity|]. split.
  - exists {| quit_calls := 2 |}. split; [reflexivity|]. simpl. lia.
  - eexists. split; vm_compute; reflexivity.
Qed.

(** C4, as the code has it. On a client whose driver was initialized,
    two calls of [stop()] in succession do not raise, and each of them
    calls [quit()] on the session once, so the session is told to quit
    twice across both calls. The loop itself never releases the session:
    when it ends by an exception the session has not been told to quit
    and the client is still flagged as running. *)
Theorem stop_twice_quits_each_time :
  (forall (c : Client) (d : Chrome),
     _driver c = Some d ->
     stop c = ({| running := false; quited := true;
                  _driver := Some (quit d); handlers := handlers c |}, Ok tt) /\
     stop (stop c).1 = ({| running := false; quited := true;
                           _driver := Some (quit (quit d));
                           handlers := handlers c |}, Ok tt)) /\
  (forall (L : gmap string locator) (pages : list Page) (c : Client)
          (fr : Frame) (e : Exn),
     run L pages c = (fr, Raise e) ->
     self fr = {| running := true; quited := quited c;
                  _driver := Some {| quit_calls := 0 |};
                  handlers := handlers c |}).
Proof.
  split.
  - intros c d Hd. rewrite (stop_Some c d Hd). split; [done|].
    reflexivity.
  - intros L pages c fr e. unfold run, main_loop. intros H.
    apply bind_inv in H as [(e1 & H & _)|([] & fr0 & Hstart & H)].
    + match type of H with trigger_event _ ?f = _ =>
        destruct (trigger_event_total on_start f) as (c' & H' & _) end;
        [by eexists|].
      rewrite H' in H. discriminate.
    + match type of Hstart with trigger_event _ ?f = _ =>
        destruct (trigger_event_total on_start f) as (c' & H' & Hd' & Hc') end;
        [by eexists|].
      rewrite H' in Hstart. injection Hstart as <-.
      apply while_running_raise in H as [Hs Hr]; [|exact Hd'].
      simpl in *. rewrite Hs.
      destruct Hc' as [[-> _]|[Hstop _]]; [done|congruence].
Qed.

Lemma stop_twice_quits_each_time_witness :
  (stop (started passive)
     = ({| running := false; quited := true;
           _driver := Some (quit {| quit_calls := 0 |});
           handlers := passive |}, Ok tt) /\
   stop (stop (started passive)).1
     = ({| running := false; quited := true;
           _driver := Some (quit (quit {| quit_calls := 0 |}));
           handlers := passive |}, Ok tt)) /\
  self (run Locator [auth_page; qr_gone_page] (__init__ passive)).1
    = {| running := true; quited := false;
         _driver := Some {| quit_calls := 0 |}; handlers := passive |}.
Proof.
  split.
  - apply (proj1 stop_twice_quits_each_time (started passive)). reflexivity.
  - apply (proj2 stop_twice_quits_each_time Locator [auth_page; qr_gone_page]
             (__init__ passive) _ NoSuchElementException).
    vm_compute. reflexivity.
Defined.

(* ===================================================================== *)
(** ** The QR code in a steady state *)

Lemma iteration_steady_qr L p fr :
  _get_state L p = Ok (Some QR_AUTH) ->
  state fr = Some QR_AUTH ->
  iteration L p fr
  = bind (try_except
            (bind (call (extract_qr L p)) (fun curr_qr_binary fr =>
               if decide (Some curr_qr_binary <> qr_binary fr) then
                 bind (set_qr_binary (Some curr_qr_binary))
                      (fun _ => trigger_event (on_qr_change curr_qr_binary)) fr
               else ret tt fr))
            qr_race (ret tt))
         (fun _ => trigger_event on_tick) fr.
Proof.
  intros Hget Hst. unfold iteration. unfold bind at 1. unfold call at 1.
  rewrite Hget. unfold bind at 1.
  destruct (decide (Some QR_AUTH <> state fr)) as [Hne|_]; [by rewrite Hst in Hne|].
  reflexivity.
Qed.

(** C3. On a steady QrAuth tick whose extraction succeeds, the change
    test compares the bytes: equal bytes fire no [on_qr_change] and keep
    the stored payload; any difference fires exactly one [on_qr_change]
    with the new payload and stores it. *)
Theorem qr_change_is_content_based (L : gmap string locator) (p : Page)
    (fr : Frame) (image : bytes) :
  has_driver fr ->
  _get_state L p = Ok (Some QR_AUTH) ->
  state fr = Some QR_AUTH ->
  extract_qr L p = Ok image ->
  exists fr', iteration L p fr = (fr', Ok tt) /\
    state fr' = Some QR_AUTH /\
    (qr_binary fr = Some image ->
       fired fr' = fired fr ++ [on_tick] /\ qr_binary fr' = qr_binary fr) /\
    (qr_binary fr <> Some image ->
       fired fr' = fired fr ++ [on_qr_change image; on_tick] /\
       qr_binary fr' = Some image).
Proof.
  intros Hd Hget Hst Hx. rewrite (iteration_steady_qr _ _ _ Hget Hst).
  unfold bind at 1. unfold try_except. unfold bind at 1. unfold call.
  rewrite Hx. destruct (decide (Some image <> qr_binary fr)) as [Hne|Heq].
  - unfold bind at 1. unfold set_qr_binary.
    match goal with |- context [trigger_event (on_qr_change image) ?f] =>
      destruct (trigger_event_total (on_qr_change image) f) as (c1 & -> & Hd1 & _) end;
      [exact Hd|].
    match goal with |- context [trigger_event on_tick ?f] =>
      destruct (trigger_event_total on_tick f) as (c2 & -> & _) end;
      [exact Hd1|].
    eexists. split; [reflexivity|]. simpl. split; [done|]. split.
    + intros Heq. by rewrite Heq in Hne.
    + intros _. by rewrite <- app_assoc.
  - apply dec_stable in Heq. unfold ret.
    destruct (trigger_event_total on_tick fr Hd) as (c2 & -> & _).
    eexists. split; [reflexivity|]. simpl. split; [done|]. split; [done|].
    intros Hne. by rewrite <- Heq in Hne.
Qed.

Lemma qr_change_is_content_based_witness :
  exists fr', iteration Locator (qr_page image2)
      {| self := started passive; state := Some QR_AUTH;
         qr_binary := Some image1; fired := [on_start; on_qr image1; on_tick] |}
      = (fr', Ok tt) /\
    fired fr' = [on_start; on_qr image1; on_tick; on_qr_change image2; on_tick] /\
    qr_binary fr' = Some image2.
Proof.
  destruct (qr_change_is_content_based Locator (qr_page image2)
      {| self := started passive; state := Some QR_AUTH;
         qr_binary := Some image1; fired := [on_start; on_qr image1; on_tick] |}
      image2) as (fr' & Hit & _ & _ & Hne).
  - by eexists.
  - vm_compute. reflexivity.
  - reflexivity.
  - vm_compute. reflexivity.
  - exists fr'. split; [exact Hit|]. apply Hne. simpl. by intros [=].
Defined.

Lemma while_running_step L p rest fr fr' :
  running (self fr) = true ->
  iteration L p fr = (fr', Ok tt) ->
  while_running L (p :: rest) fr = while_running L rest fr'.
Proof. intros Hrun Hit. simpl. rewrite Hrun. unfold bind. by rewrite Hit. Qed.

Lemma while_running_fatal L p rest fr fr' e :
  running (self fr) = true ->
  iteration L p fr = (fr', Raise e) ->
  while_running L (p :: rest) fr = (fr', Raise e).
Proof. intros Hrun Hit. simpl. rewrite Hrun. unfold bind. by rewrite Hit. Qed.

(** C5. When the QR fragment is stale or absent at extraction time
    ([StaleElementReferenceException] or [NoSuchElementException]): on a
    steady QrAuth tick the failure is swallowed, the iteration completes
    with [on_tick] as its only event, the stored payload and state are
    unchanged and the loop goes on with the next iteration; on a tick
    that enters QrAuth the same failure leaves the iteration, and the
    loop, as an exception, with nothing fired. *)
Theorem qr_race_swallowed_only_in_steady_state (L : gmap string locator)
    (p : Page) (fr : Frame) (e : Exn) :
  has_driver fr ->
  _get_state L p = Ok (Some QR_AUTH) ->
  extract_qr L p = Raise e ->
  qr_race e = true ->
  (state fr = Some QR_AUTH ->
     exists fr', iteration L p fr = (fr', Ok tt) /\
       fired fr' = fired fr ++ [on_tick] /\
       qr_binary fr' = qr_binary fr /\ state fr' = state fr /\
       forall rest, running (self fr) = true ->
         while_running L (p :: rest) fr = while_running L rest fr') /\
  (state fr <> Some QR_AUTH ->
     iteration L p fr = (fr, Raise e) /\
     forall rest, running (self fr) = true ->
       while_running L (p :: rest) fr = (fr, Raise e)).
Proof.
  intros Hd Hget Hx Hrace. split.
  - intros Hst.
    assert (Hit : exists fr', iteration L p fr = (fr', Ok tt) /\
       fired fr' = fired fr ++ [on_tick] /\
       qr_binary fr' = qr_binary fr /\ state fr' = state fr).
    { rewrite (iteration_steady_qr _ _ _ Hget Hst).
      unfold bind at 1. unfold try_except. unfold bind at 1. unfold call.
      rewrite Hx, Hrace. unfold ret.
      destruct (trigger_event_total on_tick fr Hd) as (c2 & -> & _).
      eexists. split; [reflexivity|]. by simpl. }
    destruct Hit as (fr' & Hit & Hf & Hq & Hs). exists fr'.
    repeat (split; [done|]). intros rest Hrun. by apply while_running_step.
  - intros Hst.
    assert (Hit : iteration L p fr = (fr, Raise e)).
    { unfold iteration. unfold bind at 1. unfold call at 1. rewrite Hget.
      unfold bind at 1.
      destruct (decide (Some QR_AUTH <> state fr)) as [_|Heq];
        [|by destruct Hst; apply dec_stable in Heq].
      unfold transition. unfold bind at 1. unfold bind at 1. unfold call.
      by rewrite Hx. }
    split; [done|]. intros rest Hrun. by apply while_running_fatal.
Qed.

Lemma qr_race_swallowed_only_in_steady_state_witness :
  (exists fr', iteration Locator qr_gone_page
       {| self := started passive; state := Some QR_AUTH;
          qr_binary := Some image1; fired := [on_start; on_qr image1; on_tick] |}
       = (fr', Ok tt) /\
     fired fr' = [on_start; on_qr image1; on_tick; on_tick] /\
     qr_binary fr' = Some image1) /\
  iteration Locator qr_gone_page
    {| self := started passive; state := Some AUTH;
       qr_binary := None; fired := [on_start; on_auth; on_tick] |}
  = ({| self := started passive; state := Some AUTH;
        qr_binary := None; fired := [on_start; on_auth; on_tick] |},
     Raise NoSuchElementException).
Proof.
  split.
  - destruct (qr_race_swallowed_only_in_steady_state Locator qr_gone_page
        {| self := started passive; state := Some QR_AUTH;
           qr_binary := Some image1; fired := [on_start; on_qr image1; on_tick] |}
        NoSuchElementException) as [Hsteady _].
    + by eexists.
    + vm_compute. reflexivity.
    + vm_compute. reflexivity.
    + reflexivity.
    + destruct (Hsteady eq_refl) as (fr' & Hit & Hf & Hq & _).
      exists fr'. split; [exact Hit|]. split; [exact Hf|exact Hq].
  - apply (qr_race_swallowed_only_in_steady_state Locator qr_gone_page
        {| self := started passive; state := Some AUTH;
           qr_binary := None; fired := [on_start; on_auth; on_tick] |}
        NoSuchElementException).
    + by eexists.
    + vm_compute. reflexivity.
    + vm_compute. reflexivity.
    + reflexivity.
    + simpl. by intros [=].
Defined.

(* ===================================================================== *)
(** ** [sorted]: ascending and stable *)

Section Sorting.
Context {A : Type}.
Implicit Types (x : N * A) (l : list (N * A)).

Lemma insert_by_key_perm x l : Permutation (insert_by_key x l) (x :: l).
Proof.
  induction l as [|y l IH]; simpl; [done|].
  destruct (fst x <=? fst y)%N; [done|].
  rewrite IH. apply perm_swap.
Qed.

Lemma sort_by_key_perm l : Permutation (sort_by_key l) l.
Proof.
  induction l as [|x l IH]; simpl; [done|].
  rewrite insert_by_key_perm. by constructor.
Qed.

Lemma insert_by_key_HdRel a x l :
  le_key a x -> HdRel le_key a l -> HdRel le_key a (insert_by_key x l).
Proof.
  intros Hax Hal. destruct l as [|y l]; simpl; [by constructor|].
  destruct (fst x <=? fst y)%N; constructor; [done|].
  by inversion Hal.
Qed.

Lemma insert_by_key_sorted x l :
  Sorted le_key l -> Sorted le_key (insert_by_key x l).
Proof.
  induction 1 as [|y l Hs IH Hhd]; simpl; [by repeat constructor|].
  destruct (N.leb_spec (fst x) (fst y)) as [Hle|Hlt].
  - constructor; [by constructor|]. by constructor.
  - constructor; [exact IH|]. apply insert_by_key_HdRel; [|done].
    unfold le_key. lia.
Qed.

Lemma sort_by_key_sorted l : Sorted le_key (sort_by_key l).
Proof.
  induction l as [|x l IH]; simpl; [constructor|].
  by apply insert_by_key_sorted.
Qed.

(** Stability: the elements of one key keep their order. *)
Lemma insert_by_key_filter k x l :
  List.filter (fun y => (fst y =? k)%N) (insert_by_key x l)
  = List.filter (fun y => (fst y =? k)%N) (x :: l).
Proof.
  induction l as [|y l IH]; [done|].
  cbn [insert_by_key]. destruct (N.leb_spec (fst x) (fst y)) as [Hle|Hlt]; [done|].
  cbn [List.filter] in *. rewrite IH.
  destruct (N.eqb_spec (fst x) k) as [Hx|Hx];
    destruct (N.eqb_spec (fst y) k) as [Hy|Hy]; try done.
  lia.
Qed.

Lemma sort_by_key_stable k l :
  List.filter (fun y => (fst y =? k)%N) (sort_by_key l)
  = List.filter (fun y => (fst y =? k)%N) l.
Proof.
  induction l as [|x l IH]; [done|].
  cbn [sort_by_key foldr]. fold (sort_by_key l).
  rewrite insert_by_key_filter. cbn [List.filter]. by rewrite IH.
Qed.

Variable key : A -> Result N.

Lemma mapM_keyed (items : list A) keys :
  Res.mapM key items = Ok keys ->
  keyed key (combine keys items) /\ map snd (combine keys items) = items.
Proof.
  revert keys. induction items as [|i items IH]; intros keys; simpl.
  - intros [= <-]. by split; [constructor|].
  - destruct (key i) as [k|e] eqn:Hk; [|done]. simpl.
    destruct (Res.mapM key items) as [ks|e]; [|done]. simpl.
    intros [= <-]. destruct (IH ks eq_refl) as [Hall Hmap]. simpl.
    split; [by constructor|]. by rewrite Hmap.
Qed.

Lemma mapM_total (items : list A) :
  Forall (fun i => is_Ok (key i) = true) items ->
  exists keys, Res.mapM key items = Ok keys.
Proof.
  induction 1 as [|i items Hi _ [ks IH]]; simpl; [by eexists|].
  destruct (key i) as [k|e]; [|done]. simpl. rewrite IH. simpl. by eexists.
Qed.

Lemma keyed_mapM l : keyed key l -> Res.mapM key (map snd l) = Ok (map fst l).
Proof.
  induction 1 as [|x l Hx _ IH]; [done|].
  simpl. rewrite Hx. simpl. by rewrite IH.
Qed.

Lemma keyed_filter k l :
  keyed key l ->
  List.filter (has_key key k) (map snd l)
  = map snd (List.filter (fun y => (fst y =? k)%N) l).
Proof.
  induction 1 as [|x l Hx _ IH]; [done|].
  simpl. unfold has_key at 1. rewrite Hx.
  destruct (fst x =? k)%N; simpl; by rewrite IH.
Qed.

Lemma Sorted_map_fst l : Sorted le_key l -> Sorted N.le (map fst l).
Proof.
  induction 1 as [|y l Hs IH Hhd]; simpl; constructor; [done|].
  destruct Hhd; simpl; by constructor.
Qed.

(** [sorted], when the key of every item can be computed: the result
    is a rearrangement of the items, its keys ascend, and the items of
    equal key are in their original order. *)
Lemma sorted_spec (items : list A) :
  Forall (fun i => is_Ok (key i) = true) items ->
  exists out keys,
    sorted key items = Ok out /\
    Permutation out items /\
    Res.mapM key out = Ok keys /\
    Sorted N.le keys /\
    forall k, List.filter (has_key key k) out = List.filter (has_key key k) items.
Proof.
  intros Hall. destruct (mapM_total items Hall) as [ks Hks].
  destruct (mapM_keyed items ks Hks) as [Hkeyed Hsnd].
  assert (Hkeyed' : keyed key (sort_by_key (combine ks items))).
  { unfold keyed. by rewrite sort_by_key_perm. }
  exists (map snd (sort_by_key (combine ks items))),
         (map fst (sort_by_key (combine ks items))).
  split; [unfold sorted; by rewrite Hks|]. split; [|split; [|split]].
  - rewrite <- Hsnd at 2. apply Permutation_map, sort_by_key_perm.
  - by apply keyed_mapM.
  - apply Sorted_map_fst, sort_by_key_sorted.
  - intros k. rewrite (keyed_filter k _ Hkeyed'), sort_by_key_stable.
    rewrite <- (keyed_filter k _ Hkeyed). by rewrite Hsnd.
Qed.

(** An item whose key cannot be computed ends the call. *)
Lemma sorted_raises (items : list A) :
  Exists (fun i => is_Ok (key i) = false) items ->
  exists e, sorted key items = Raise e.
Proof.
  unfold sorted. intros H.
  assert (exists e, Res.mapM key items = Raise e) as [e ->]; [|by exists e].
  induction H as [i items Hi|i items _ [e IH]]; simpl.
  - destruct (key i); [done|by eexists].
  - destruct (key i); simpl; [|by eexists]. rewrite IH. by eexists.
Qed.
End Sorting.

(** C8. The search items are ordered by the number read from the last
    numeric token of their transform, ascending, so the item at
    [translateY(40px)] comes before the one at [translateY(120px)]; the
    order is stable: the items of equal offset keep their original
    order. *)
Theorem search_items_sorted_by_offset (items : list Element) :
  Forall (fun i => is_Ok (search_sort_key i) = true) items ->
  sorted search_sort_key [item "120" "Bob"; item "40" "Alice"]
    = Ok [item "40" "Alice"; item "120" "Bob"] /\
  exists out keys,
    sorted search_sort_key items = Ok out /\
    Permutation out items /\
    Res.mapM search_sort_key out = Ok keys /\
    Sorted N.le keys /\
    forall k, List.filter (has_key search_sort_key k) out
              = List.filter (has_key search_sort_key k) items.
Proof.
  intros Hall. split; [reflexivity|]. by apply sorted_spec.
Qed.

Lemma search_items_sorted_by_offset_witness :
  exists out,
    sorted search_sort_key
      [item "120" "Bob"; header "0" "CHATS"; item "40" "Alice"; item "40" "Carol"]
    = Ok out /\
    List.filter (has_key search_sort_key 40) out
    = [item "40" "Alice"; item "40" "Carol"].
Proof.
  destruct (search_items_sorted_by_offset
      [item "120" "Bob"; header "0" "CHATS"; item "40" "Alice"; item "40" "Carol"])
    as (_ & out & keys & Hout & _ & _ & _ & Hstable).
  - repeat constructor.
  - exists out. split; [exact Hout|]. by rewrite Hstable.
Defined.

(* ===================================================================== *)
(** ** Search results and their category *)

Section SearchLoop.
Variable parse : Element -> option string -> option SearchResult.

Lemma search_step_header result t curr_type results :
  header_text result = Some t ->
  search_step parse (curr_type, results) result = (Some t, results).
Proof.
  unfold header_text, search_step.
  destruct (find_child_divs result) as [|child [|]]; try done.
  destruct (length (find_child_elements child) =? 0)%nat; [|done].
  by intros [= <-].
Qed.

Lemma search_step_item result curr_type results :
  header_text result = None ->
  search_step parse (curr_type, results) result
  = (curr_type, results ++ option_list (parse result curr_type)).
Proof.
  unfold header_text, search_step. intros H.
  assert (Hitem : match parse result curr_type with
                  | Some r => (curr_type, results ++ [r])
                  | None => (curr_type, results)
                  end = (curr_type, results ++ option_list (parse result curr_type))).
  { destruct (parse result curr_type); simpl; [done|by rewrite app_nil_r]. }
  destruct (find_child_divs result) as [|child [|]]; try done.
  by destruct (length (find_child_elements child) =? 0)%nat.
Qed.

(** Below a header, every item is parsed with the same category. *)
Lemma search_loop_items items curr_type results :
  Forall (fun e => header_text e = None) items ->
  fold_left (search_step parse) items (curr_type, results)
  = (curr_type, results ++ omap (fun e => parse e curr_type) items).
Proof.
  intros H. revert results.
  induction H as [|e items He _ IH]; intros results; cbn [fold_left omap list_omap].
  - by rewrite app_nil_r.
  - rewrite (search_step_item _ _ _ He), IH. f_equal.
    rewrite <- app_assoc. f_equal. by destruct (parse e curr_type).
Qed.
End SearchLoop.

Lemma parse_search_result_category element result_type r :
  parse_search_result element result_type = Some r -> category r = result_type.
Proof.
  unfold parse_search_result.
  destruct (find_descendants _ _ element); [done|]. by intros [= <-].
Qed.

(** C7. In the loop of [search], over the fragments in position order: a
    header fragment (one child [div] without child elements) sets the
    current category to the text of that child and adds no result; any
    other fragment adds the result parsed from it, tagged with the
    current category, or nothing when the parser gives [None]; so all
    items below a header carry its category. The list
    header CHATS, Alice, Bob, header CONTACTS, Carol gives Alice and Bob
    under CHATS and Carol under CONTACTS. *)
Theorem search_results_tagged_with_current_category
    (result : Element) (curr_type : option string) (results : list SearchResult) :
  (forall t, header_text result = Some t ->
     search_step parse_search_result (curr_type, results) result = (Some t, results)) /\
  (header_text result = None ->
     match parse_search_result result curr_type with
     | Some r =>
         search_step parse_search_result (curr_type, results) result
           = (curr_type, results ++ [r]) /\
         category r = curr_type
     | None =>
         search_step parse_search_result (curr_type, results) result
           = (curr_type, results)
     end) /\
  (forall items, Forall (fun e => header_text e = None) items ->
     fold_left (search_step parse_search_result) items (curr_type, results)
       = (curr_type,
          results ++ omap (fun e => parse_search_result e curr_type) items) /\
     Forall (fun r => category r = curr_type)
       (omap (fun e => parse_search_result e curr_type) items)) /\
  search [header "0" "CHATS"; item "72" "Alice"; item "144" "Bob";
          header "216" "CONTACTS"; item "288" "Carol"]
  = Ok [ {| category := Some "CHATS"; title := "Alice"; unreadCount := None |};
         {| category := Some "CHATS"; title := "Bob"; unreadCount := None |};
         {| category := Some "CONTACTS"; title := "Carol"; unreadCount := None |} ].
Proof.
  split; [|split; [|split]].
  - intros t Ht. by apply search_step_header.
  - intros Hitem. rewrite (search_step_item _ _ _ _ Hitem).
    destruct (parse_search_result result curr_type) as [r|] eqn:Hr; simpl.
    + split; [done|]. by eapply parse_search_result_category.
    + by rewrite app_nil_r.
  - intros items Hitems. split; [by apply search_loop_items|].
    apply Forall_forall. intros r Hin.
    apply list_elem_of_omap in Hin as (e & _ & He).
    by eapply parse_search_result_category.
  - vm_compute. reflexivity.
Qed.

Lemma search_results_tagged_with_current_category_witness :
  search_step parse_search_result (None, []) (header "0" "CHATS")
    = (Some "CHATS", []) /\
  search_step parse_search_result (Some "CHATS", []) (item "72" "Alice")
    = (Some "CHATS",
       [] ++ [{| category := Some "CHATS"; title := "Alice"; unreadCount := None |}]) /\
  fold_left (search_step parse_search_result)
    [item "72" "Alice"; item "144" "Bob"] (Some "CHATS", [])
    = (Some "CHATS",
       [] ++ omap (fun e => parse_search_result e (Some "CHATS"))
               [item "72" "Alice"; item "144" "Bob"]).
Proof.
  split; [|split].
  - apply (proj1 (search_results_tagged_with_current_category
                    (header "0" "CHATS") None [])).
    reflexivity.
  - apply (proj1 (proj2 (search_results_tagged_with_current_category
                           (item "72" "Alice") (Some "CHATS") [])) eq_refl).
  - apply (proj1 (proj2 (proj2 (search_results_tagged_with_current_category
                                  (item "72" "Alice") (Some "CHATS") [])))
             [item "72" "Alice"; item "144" "Bob"]).
    repeat constructor.
Defined.

(* ===================================================================== *)
(** * Further properties *)

(** ** The locator table: bulk updates and the algebra of [set_locator] *)

Lemma upper_ascii_idem c : upper_ascii (upper_ascii c) = upper_ascii c.
Proof. by destruct c as [[] [] [] [] [] [] [] []]. Qed.

Lemma upper_idem s : upper (upper s) = upper s.
Proof. induction s as [|c s IH]; simpl; [done|]. by rewrite upper_ascii_idem, IH. Qed.

Lemma upper_ascii_not_lower c : is_lower (upper_ascii c) = false.
Proof. by destruct c as [[] [] [] [] [] [] [] []]. Qed.

Lemma upper_has_no_lower s : has_lower (upper s) = false.
Proof.
  induction s as [|c s IH]; simpl; [done|].
  by rewrite upper_ascii_not_lower, IH.
Qed.

Lemma set_locator_lookup name loc cls k :
  (set_locator name loc cls).1 !! k
  = if decide (k = upper name) then
      match cls !! k with Some _ => Some loc | None => None end
    else cls !! k.
Proof.
  unfold set_locator. destruct (hasattr cls (upper name)) eqn:E; simpl.
  - apply hasattr_true in E as [old Hold]. destruct (decide (k = upper name)) as [->|Hne].
    + by rewrite lookup_insert_eq, Hold.
    + by rewrite lookup_insert_ne.
  - apply hasattr_false in E. destruct (decide (k = upper name)) as [->|Hne]; [|done].
    by rewrite E.
Qed.

Lemma set_locator_flag name loc cls :
  (set_locator name loc cls).2 = hasattr cls (upper name).
Proof. unfold set_locator. by destruct (hasattr cls (upper name)). Qed.

Lemma hasattr_set_locator name loc cls k :
  hasattr (set_locator name loc cls).1 k = hasattr cls k.
Proof.
  unfold hasattr. apply bool_decide_ext.
  rewrite <- !elem_of_dom. by rewrite set_locator_dom.
Qed.

Lemma set_locators_dom us cls : dom (set_locators us cls).1 = dom cls.
Proof.
  revert cls. induction us as [|[k v] us IH]; intros cls; simpl; [done|].
  destruct (set_locator k v cls) as [cls1 b] eqn:E1.
  destruct (set_locators us cls1) as [cls2 bs] eqn:E2. simpl.
  specialize (IH cls1). rewrite E2 in IH. simpl in IH. rewrite IH.
  by rewrite <- (set_locator_dom k v cls), E1.
Qed.

(** X1. A bulk update returns one flag per item, in order; the flag of
    an item tells whether its upper-cased name was an attribute of the
    class before the whole update; and the update never adds or removes
    an attribute. *)
Theorem set_locators_flags (us : list (string * locator))
    (cls : gmap string locator) :
  (set_locators us cls).2 = map (fun kv => hasattr cls (upper (fst kv))) us /\
  length (set_locators us cls).2 = length us /\
  dom (set_locators us cls).1 = dom cls.
Proof.
  assert (H : (set_locators us cls).2
              = map (fun kv => hasattr cls (upper (fst kv))) us).
  { revert cls. induction us as [|[k v] us IH]; intros cls; simpl; [done|].
    destruct (set_locator k v cls) as [cls1 b] eqn:E1.
    destruct (set_locators us cls1) as [cls2 bs] eqn:E2. simpl.
    specialize (IH cls1). rewrite E2 in IH. simpl in IH. rewrite IH.
    f_equal.
    - by rewrite <- (set_locator_flag k v cls), E1.
    - apply map_ext. intros [k' v']. simpl.
      by rewrite <- (hasattr_set_locator k v cls), E1. }
  split; [done|]. split; [by rewrite H, length_map|]. apply set_locators_dom.
Qed.

(** X2. After a bulk update, [get_locator] gives for a defined name the
    value of the last item of the update whose name has the same
    upper-cased form, the previous value when no item has, and [None]
    for a name that was not defined. *)
Theorem get_locator_set_locators (us : list (string * locator))
    (cls : gmap string locator) (name : string) :
  get_locator name (set_locators us cls).1
  = match cls !! upper name with
    | None => None
    | Some old =>
        Some (default old
                (snd <$> last (List.filter
                   (fun kv => bool_decide (upper (fst kv) = upper name)) us)))
    end.
Proof.
  unfold get_locator. revert cls.
  induction us as [|[k v] us IH]; intros cls.
  - simpl. by destruct (cls !! upper name).
  - cbn [set_locators].
    destruct (set_locator k v cls) as [cls1 b] eqn:E1.
    destruct (set_locators us cls1) as [cls2 bs] eqn:E2.
    specialize (IH cls1). rewrite E2 in IH. cbn [fst] in *. rewrite IH.
    replace cls1 with (set_locator k v cls).1 by by rewrite E1.
    rewrite set_locator_lookup. cbn [List.filter fst].
    destruct (decide (upper name = upper k)) as [Heq|Hne].
    + rewrite bool_decide_eq_true_2 by done.
      destruct (cls !! upper name) as [old|]; [|done]. f_equal.
      destruct (List.filter _ us) as [|kv l] eqn:Hf; [done|].
      rewrite last_cons_cons. destruct (last (kv :: l)) eqn:Hl; [done|].
      by apply last_None in Hl.
    + rewrite bool_decide_eq_false_2 by done. done.
Qed.

(** X3. [set_locator] and [get_locator] address attributes by the
    upper-cased name only: the upper-cased name is interchangeable with
    the name itself, and an attribute whose name has a lower-case ASCII
    letter (the class methods [set_locator], [get_locator], ...) is
    never written by [set_locator] and never returned by
    [get_locator]. *)
Theorem set_locator_upper_case_only (name : string) (loc : locator)
    (cls : gmap string locator) :
  set_locator (upper name) loc cls = set_locator name loc cls /\
  get_locator (upper name) cls = get_locator name cls /\
  forall (k : string) (v : locator), has_lower k = true ->
    (set_locator name loc cls).1 !! k = cls !! k /\
    get_locator name {[ k := v ]} = None /\
    set_locator name loc {[ k := v ]} = ({[ k := v ]}, false).
Proof.
  split; [|split].
  - unfold set_locator. by rewrite upper_idem.
  - unfold get_locator. by rewrite upper_idem.
  - intros k v Hk.
    assert (Hne : k <> upper name).
    { intros ->. by rewrite upper_has_no_lower in Hk. }
    split; [|split].
    + rewrite set_locator_lookup. by destruct (decide (k = upper name)).
    + unfold get_locator. by apply lookup_singleton_ne.
    + unfold set_locator.
      assert (hasattr {[k := v]} (upper name) = false) as ->; [|done].
      apply hasattr_false. by apply lookup_singleton_ne.
Qed.

Lemma set_locator_upper_case_only_witness :
  (set_locator "qr_code" ("id", "qr") Locator).1 !! "set_locator"
    = Locator !! "set_locator" /\
  get_locator "set_locator" {[ "set_locator" := ("id", "qr") ]} = None.
Proof.
  destruct (set_locator_upper_case_only "qr_code" ("id", "qr") Locator)
    as (_ & _ & H1).
  destruct (set_locator_upper_case_only "set_locator" ("id", "qr") Locator)
    as (_ & _ & H2).
  split.
  - apply (H1 "set_locator" ("id", "qr")). reflexivity.
  - apply (H2 "set_locator" ("id", "qr")). reflexivity.
Defined.

(** X4. Setting the same name twice keeps the last value only: the
    table is the one a single call with the last value gives; and
    setting a name to the value it already has changes nothing and
    returns [True]. *)
Theorem set_locator_last_wins (name : string) (l1 l2 : locator)
    (cls : gmap string locator) :
  (set_locator name l2 (set_locator name l1 cls).1).1 = (set_locator name l2 cls).1 /\
  (set_locator name l2 (set_locator name l1 cls).1).2 = (set_locator name l2 cls).2 /\
  (get_locator name cls = Some l1 -> set_locator name l1 cls = (cls, true)).
Proof.
  split; [|split].
  - apply map_eq. intros k. rewrite !set_locator_lookup.
    destruct (decide (k = upper name)); [|done]. by destruct (cls !! k).
  - by rewrite !set_locator_flag, hasattr_set_locator.
  - unfold get_locator, set_locator. intros H.
    assert (hasattr cls (upper name) = true) as ->.
    { apply hasattr_true. by eexists. }
    f_equal. by apply insert_id.
Qed.

Lemma set_locator_last_wins_witness :
  set_locator "auth" (XPATH, "//div[contains(text(), 'Use WhatsApp on your computer')]")
    Locator = (Locator, true).
Proof.
  apply (set_locator_last_wins "auth" _ ("id", "x") Locator).
  vm_compute. reflexivity.
Defined.

(** X5. Updates of two names with different upper-cased forms commute:
    the table does not depend on their order, and each returns the flag
    it would return alone. *)
Theorem set_locator_commute (n1 n2 : string) (l1 l2 : locator)
    (cls : gmap string locator) :
  upper n1 <> upper n2 ->
  (set_locator n1 l1 (set_locator n2 l2 cls).1).1
    = (set_locator n2 l2 (set_locator n1 l1 cls).1).1 /\
  (set_locator n1 l1 (set_locator n2 l2 cls).1).2 = (set_locator n1 l1 cls).2 /\
  (set_locator n2 l2 (set_locator n1 l1 cls).1).2 = (set_locator n2 l2 cls).2.
Proof.
  intros Hne. split; [|split].
  - apply map_eq. intros k. rewrite !set_locator_lookup.
    destruct (decide (k = upper n1)) as [->|]; [|done].
    destruct (decide (upper n1 = upper n2)); done.
  - by rewrite !set_locator_flag, hasattr_set_locator.
  - by rewrite !set_locator_flag, hasattr_set_locator.
Qed.

Lemma set_locator_commute_witness :
  (set_locator "auth" ("id", "a") (set_locator "Qr_Code" ("id", "q") Locator).1).1
  = (set_locator "Qr_Code" ("id", "q") (set_locator "auth" ("id", "a") Locator).1).1.
Proof.
  apply (set_locator_commute "auth" "Qr_Code" ("id", "a") ("id", "q") Locator).
  by intros [=].
Defined.

Lemma Locator_names_defined n :
  n ∈ Locator_names -> is_Some (Locator !! n).
Proof.
  intros Hn. apply elem_of_dom. unfold Locator.
  rewrite dom_list_to_map_L. by apply elem_of_list_to_set.
Qed.

(** X6. No sequence of bulk updates can make an attribute read of
    [client.py] fail: every attribute of the class body is still defined
    after [set_locators], so [Locator.NAME] never raises
    [AttributeError]. *)
Theorem Locator_reads_never_fail (us : list (string * locator)) (n : string) :
  n ∈ Locator_names ->
  exists l, getattr (set_locators us Locator).1 n = Ok l.
Proof.
  intros Hn. apply Locator_names_defined in Hn.
  apply elem_of_dom in Hn. rewrite <- (set_locators_dom us) in Hn.
  apply elem_of_dom in Hn as [l Hl]. exists l. unfold getattr. by rewrite Hl.
Qed.

Lemma Locator_reads_never_fail_witness :
  exists l, getattr (set_locators [("qr_code", ("id", "q")); ("nope", ("id", "n"))]
                       Locator).1 "QR_CODE" = Ok l.
Proof.
  apply (Locator_reads_never_fail _ "QR_CODE").
  vm_compute. repeat first [apply list_elem_of_here | apply list_elem_of_further].
Defined.

(** X7. Replacing a locator other than the four the classifier probes
    (LOGGED_IN, LOADING, QR_CODE, AUTH) never changes what [_get_state]
    answers. *)
Theorem _get_state_ignores_other_locators (name : string) (loc : locator)
    (L : gmap string locator) (p : Page) :
  upper name <> "LOGGED_IN" -> upper name <> "LOADING" ->
  upper name <> "QR_CODE" -> upper name <> "AUTH" ->
  _get_state (set_locator name loc L).1 p = _get_state L p.
Proof.
  intros H1 H2 H3 H4. unfold _get_state, getattr.
  rewrite !set_locator_lookup.
  repeat (match goal with |- context [decide (?a = upper name)] =>
            destruct (decide (a = upper name)) as [?|_]; [by subst|] end).
  done.
Qed.

Lemma _get_state_ignores_other_locators_witness :
  _get_state (set_locator "search_item" ("id", "s") Locator).1 (qr_page image1)
  = _get_state Locator (qr_page image1).
Proof.
  apply _get_state_ignores_other_locators; by intros [=].
Defined.

(* ===================================================================== *)
(** ** The classifier, read backwards *)

(** X8. What an answer of [_get_state] tells about the page: a state
    means that its locator was present and every locator probed before
    it was absent; [None] means that all four were absent; an exception
    is the one of the first probe that did not answer, all probes before
    it having found nothing. *)
Theorem _get_state_sound (L : gmap string locator) (p : Page)
    (logged_in loading qr_code auth : locator) :
  L !! "LOGGED_IN" = Some logged_in ->
  L !! "LOADING" = Some loading ->
  L !! "QR_CODE" = Some qr_code ->
  L !! "AUTH" = Some auth ->
  (forall cs, _get_state L p = Ok cs ->
     match cs with
     | Some LOGGED_IN => is_present p logged_in = Ok true
     | Some LOADING =>
         is_present p logged_in = Ok false /\ is_present p loading = Ok true
     | Some QR_AUTH =>
         is_present p logged_in = Ok false /\ is_present p loading = Ok false /\
         is_present p qr_code = Ok true
     | Some AUTH =>
         is_present p logged_in = Ok false /\ is_present p loading = Ok false /\
         is_present p qr_code = Ok false /\ is_present p auth = Ok true
     | None =>
         is_present p logged_in = Ok false /\ is_present p loading = Ok false /\
         is_present p qr_code = Ok false /\ is_present p auth = Ok false
     end) /\
  (forall e, _get_state L p = Raise e ->
     is_present p logged_in = Raise e \/
     (is_present p logged_in = Ok false /\
      (is_present p loading = Raise e \/
       (is_present p loading = Ok false /\
        (is_present p qr_code = Raise e \/
         (is_present p qr_code = Ok false /\ is_present p auth = Raise e)))))).
Proof.
  intros H1 H2 H3 H4. unfold _get_state, getattr.
  rewrite H1, H2, H3, H4. simpl.
  destruct (is_present p logged_in) as [[]|e1]; simpl;
    [split; [by intros ? [= <-]|done] | | split; [done|by intros ? [= <-]; left]].
  destruct (is_present p loading) as [[]|e2]; simpl;
    [split; [by intros ? [= <-]|done] | | split; [done|intros ? [= <-]; auto]].
  destruct (is_present p qr_code) as [[]|e3]; simpl;
    [split; [by intros ? [= <-]|done] | | split; [done|intros ? [= <-]; auto 10]].
  destruct (is_present p auth) as [[]|e4]; simpl;
    [split; [by intros ? [= <-]|done] | split; [by intros ? [= <-]|done]
    | split; [done|intros ? [= <-]; auto 10]].
Qed.

Lemma _get_state_sound_witness :
  is_present (qr_page image1) (XPATH, "//div[@title='Chats']") = Ok false /\
  is_present (qr_page image1)
    (XPATH, "//div[//span[@data-icon='lock'] and contains(text(), 'End-to-end encrypted') and //progress]")
    = Ok false /\
  is_present (qr_page image1)
    (XPATH, "//canvas[@aria-label='Scan this QR code to link a device!']") = Ok true.
Proof.
  apply (proj1 (_get_state_sound Locator (qr_page image1) _ _ _ _
                  eq_refl eq_refl eq_refl eq_refl) (Some QR_AUTH)).
  vm_compute. reflexivity.
Defined.

(* ===================================================================== *)
(** ** The loop, iteration by iteration *)

Lemma apply_handlers_app c evs1 evs2 :
  apply_handlers c (evs1 ++ evs2) = apply_handlers (apply_handlers c evs1) evs2.
Proof. unfold apply_handlers. by rewrite fold_left_app. Qed.

Lemma apply_handlers_driver c evs :
  is_Some (_driver c) -> is_Some (_driver (apply_handlers c evs)).
Proof.
  revert c. induction evs as [|e evs IH]; intros c Hd; [done|].
  simpl. apply IH. destruct (handlers c e); [|done].
  destruct Hd as [d Hd]. rewrite (stop_Some c d Hd). simpl. by eexists.
Qed.

Lemma has_driver_advance evs st qr fr :
  has_driver fr -> has_driver (advance evs st qr fr).
Proof. apply apply_handlers_driver. Qed.

Lemma advance_advance evs1 st1 qr1 evs2 st2 qr2 fr :
  advance evs2 st2 qr2 (advance evs1 st1 qr1 fr) = advance (evs1 ++ evs2) st2 qr2 fr.
Proof. unfold advance. simpl. by rewrite apply_handlers_app, app_assoc. Qed.

Lemma advance_nil fr : advance [] (state fr) (qr_binary fr) fr = fr.
Proof. destruct fr. unfold advance. simpl. by rewrite app_nil_r. Qed.

Lemma trigger_event_advance e fr :
  has_driver fr ->
  trigger_event e fr = (advance [e] (state fr) (qr_binary fr) fr, Ok tt).
Proof.
  intros [d Hd]. rewrite trigger_event_eq. unfold advance. simpl.
  destruct (handlers (self fr) e); [|done].
  unfold self_stop. simpl. by rewrite (stop_Some _ _ Hd).
Qed.

Lemma trigger_unread_advance chats fr :
  has_driver fr ->
  trigger_unread chats fr
  = (advance (map on_unread_chat chats) (state fr) (qr_binary fr) fr, Ok tt).
Proof.
  revert fr. induction chats as [|chat rest IH]; intros fr Hd; simpl.
  - by rewrite advance_nil.
  - unfold bind. rewrite (trigger_event_advance _ _ Hd).
    rewrite IH by by apply has_driver_advance.
    by rewrite advance_advance.
Qed.

(** An iteration either raises with the frame untouched or completes in
    one of the shapes of [tick_shape]. *)
Lemma iteration_advance L p fr fr' r :
  has_driver fr ->
  iteration L p fr = (fr', r) ->
  (exists e, r = Raise e /\ fr' = fr) \/
  (exists evs st qr, r = Ok tt /\ fr' = advance evs st qr fr /\
     tick_shape L p (state fr) (qr_binary fr) evs st qr).
Proof.
  intros Hd. unfold iteration. unfold bind at 1. unfold call at 1.
  destruct (_get_state L p) as [[s|]|e] eqn:Hget.
  - unfold bind at 1.
    destruct (decide (Some s <> state fr)) as [Hne|Heq].
    + (* a changed state *)
      unfold transition. unfold bind at 1.
      assert (Hfin : forall ev qr',
        qr' = match qr_payload ev with Some q => Some q | None => qr_binary fr end ->
        entered ev = Some s ->
        (forall q, ev = on_qr q -> extract_qr L p = Ok q) ->
        (let '(fr1, r1) := set_state (Some s) (advance [ev] (state fr) qr' fr) in
         match r1 with
         | Ok a => trigger_event on_tick fr1
         | Raise e => (fr1, Raise e)
         end) = (fr', r) ->
        exists evs st qr, r = Ok tt /\ fr' = advance evs st qr fr /\
          tick_shape L p (state fr) (qr_binary fr) evs st qr).
      { intros ev qr' Hqr Hev Hx. unfold set_state. cbn [advance self state qr_binary fired].
        rewrite trigger_event_advance by by apply apply_handlers_driver.
        intros [= <- <-]. exists [ev; on_tick], (Some s), qr'.
        split; [done|]. split.
        - unfold advance. simpl. by rewrite <- app_assoc.
        - subst qr'. by constructor. }
      destruct s.
      * rewrite (trigger_event_advance _ _ Hd). intros H. right.
        by apply (Hfin on_auth (qr_binary fr)).
      * unfold bind at 1. unfold call.
        destruct (extract_qr L p) as [q|e] eqn:Hx.
        -- unfold bind at 1. unfold set_qr_binary.
           rewrite trigger_event_advance by done. intros H. right.
           apply (Hfin (on_qr q) (Some q)); try done. by intros ? [= <-].
        -- intros [= <- <-]. left. eauto.
      * unfold bind at 1. unfold call.
        destruct (Res.bind _ _) as [b|e].
        -- rewrite (trigger_event_advance _ _ Hd). intros H. right.
           by apply (Hfin (on_loading b) (qr_binary fr)).
        -- intros [= <- <-]. left. eauto.
      * rewrite (trigger_event_advance _ _ Hd). intros H. right.
        by apply (Hfin on_logged_in (qr_binary fr)).
    + (* the same state *)
      apply dec_stable in Heq. unfold steady.
      destruct (decide (s = QR_AUTH)) as [->|Hnqr].
      * unfold try_except. unfold bind at 1. unfold call.
        destruct (extract_qr L p) as [q|e] eqn:Hx.
        -- destruct (decide (Some q <> qr_binary fr)) as [Hq|Hq].
           ++ unfold bind at 1. unfold set_qr_binary.
              rewrite trigger_event_advance by done.
              cbn [advance self state qr_binary fired].
              rewrite trigger_event_advance by by apply apply_handlers_driver.
              intros [= <- <-]. right.
              exists [on_qr_change q; on_tick], (state fr), (Some q).
              split; [done|]. split.
              ** unfold advance. simpl. by rewrite <- app_assoc.
              ** by constructor.
           ++ unfold ret. rewrite (trigger_event_advance _ _ Hd).
              intros [= <- <-]. right.
              exists [on_tick], (state fr), (qr_binary fr). split; [done|].
              split; [done|]. by apply (tick_steady _ _ _ _ QR_AUTH []).
        -- destruct (qr_race e).
           ++ unfold ret. rewrite (trigger_event_advance _ _ Hd).
              intros [= <- <-]. right.
              exists [on_tick], (state fr), (qr_binary fr). split; [done|].
              split; [done|]. by apply (tick_steady _ _ _ _ QR_AUTH []).
           ++ intros [= <- <-]. left. eauto.
      * destruct (decide (s = LOGGED_IN)) as [->|Hnl].
        -- unfold bind at 1. unfold call.
           destruct (unread_scan L p) as [chats|e] eqn:Hscan.
           ++ rewrite (trigger_unread_advance _ _ Hd).
              rewrite trigger_event_advance by by apply has_driver_advance.
              cbn [advance state qr_binary].
              intros [= <- <-]. right.
              exists (map on_unread_chat chats ++ [on_tick]), (state fr), (qr_binary fr).
              split; [done|]. split.
              ** by rewrite advance_advance.
              ** by apply (tick_steady _ _ _ _ LOGGED_IN chats).
           ++ intros [= <- <-]. left. eauto.
        -- unfold ret. rewrite (trigger_event_advance _ _ Hd).
           intros [= <- <-]. right.
           exists [on_tick], (state fr), (qr_binary fr). split; [done|].
           split; [done|]. by apply (tick_steady _ _ _ _ s []).
  - intros [= <- <-]. right. exists [], (state fr), (qr_binary fr).
    split; [done|]. split; [by rewrite advance_nil|]. by constructor.
  - intros [= <- <-]. left. eauto.
Qed.

Lemma main_loop_boot L pages c :
  main_loop L pages c
  = while_running L pages (advance [on_start] None None (boot c)).
Proof.
  unfold main_loop, bind. fold (boot c).
  rewrite trigger_event_advance by by eexists. done.
Qed.

(** Induction over the iterations of the loop: a property of the frame
    that every shape of iteration keeps holds when the loop ends,
    however it ends. *)
Lemma while_running_invariant (I : Frame -> Prop) L :
  (forall p fr evs st qr,
     has_driver fr -> running (self fr) = true -> I fr ->
     tick_shape L p (state fr) (qr_binary fr) evs st qr ->
     I (advance evs st qr fr)) ->
  forall pages fr fr' r,
    has_driver fr -> I fr -> while_running L pages fr = (fr', r) -> I fr'.
Proof.
  intros Hstep pages. induction pages as [|p rest IH]; intros fr fr' r Hd HI; simpl.
  - destruct (running (self fr)); by intros [= <- <-].
  - destruct (running (self fr)) eqn:Hrun; [|by intros [= <- <-]].
    unfold bind. destruct (iteration L p fr) as [fr1 r1] eqn:Hit.
    apply (iteration_advance _ _ _ _ _ Hd) in Hit
      as [(e & -> & ->)|(evs & st & qr & -> & -> & Hshape)].
    + by intros [= <- <-].
    + apply IH; [by apply has_driver_advance|by eapply Hstep].
Qed.

Lemma main_loop_invariant (I : Frame -> Prop) L pages c fr r :
  I (advance [on_start] None None (boot c)) ->
  (forall p fr evs st qr,
     has_driver fr -> running (self fr) = true -> I fr ->
     tick_shape L p (state fr) (qr_binary fr) evs st qr ->
     I (advance evs st qr fr)) ->
  main_loop L pages c = (fr, r) -> I fr.
Proof.
  intros H0 Hstep. rewrite main_loop_boot.
  apply (while_running_invariant I L Hstep); [|done].
  apply has_driver_advance. by eexists.
Qed.

Lemma apply_handlers_fields c d evs :
  _driver c = Some d ->
  let n := length (List.filter (handlers c) evs) in
  handlers (apply_handlers c evs) = handlers c /\
  _driver (apply_handlers c evs) = Some {| quit_calls := quit_calls d + n |} /\
  running (apply_handlers c evs) = running c && (n =? 0)%nat /\
  quited (apply_handlers c evs) = quited c || negb (n =? 0)%nat.
Proof.
  revert c d. induction evs as [|e evs IH]; intros c d Hd; simpl.
  - rewrite Nat.add_0_r, andb_true_r, orb_false_r. by destruct d.
  - destruct (handlers c e) eqn:He.
    + rewrite (stop_Some c d Hd). cbn [fst].
      edestruct (IH {| running := false; quited := true;
                       _driver := Some (quit d); handlers := handlers c |} (quit d) eq_refl)
        as (Hh & Hdr & Hr & Hq).
      cbn [handlers running quited quit quit_calls] in *.
      rewrite Hh, Hdr, Hr, Hq. simpl.
      rewrite andb_false_r, orb_true_r. repeat split. do 2 f_equal. lia.
    + apply (IH c d Hd).
Qed.

(** X9. However a run ends, the client it leaves is accounted for by the
    events fired: the session has been told to quit once for every
    fired event whose handler calls [stop()], [running] is still set
    exactly when there was none, [quited] is set as soon as there was
    one, and the handlers are untouched. *)
Theorem run_quit_accounting (L : gmap string locator) (pages : list Page)
    (c : Client) (fr : Frame) (r : Result unit) :
  run L pages c = (fr, r) ->
  let stops := List.filter (handlers c) (fired fr) in
  handlers (self fr) = handlers c /\
  _driver (self fr) = Some {| quit_calls := length stops |} /\
  running (self fr) = (length stops =? 0)%nat /\
  quited (self fr) = quited c || negb (length stops =? 0)%nat.
Proof.
  unfold run. intros H.
  set (c1 := {| running := true; quited := quited c;
                _driver := _driver c; handlers := handlers c |}) in *.
  assert (HI : self fr = apply_handlers (self (boot c1)) (fired fr)).
  { apply (main_loop_invariant
             (fun fr => self fr = apply_handlers (self (boot c1)) (fired fr))
             L pages c1 fr r); [done| |done].
    intros p fr0 evs st qr _ _ HI _. unfold advance. cbn [self fired].
    by rewrite apply_handlers_app, <- HI. }
  rewrite HI.
  apply (apply_handlers_fields (self (boot c1)) {| quit_calls := 0 |}). done.
Qed.

Lemma run_quit_accounting_witness :
  _driver (self (run Locator [logged_in_page []; auth_page]
                   (__init__ stop_when_logged_in)).1)
  = Some {| quit_calls :=
      length (List.filter stop_when_logged_in
                (fired (run Locator [logged_in_page []; auth_page]
                          (__init__ stop_when_logged_in)).1)) |}.
Proof.
  eapply (run_quit_accounting Locator [logged_in_page []; auth_page]
            (__init__ stop_when_logged_in)).
  apply surjective_pairing.
Defined.

Lemma omap_unread {B} (f : Event -> option B) chats :
  (forall chat, f (on_unread_chat chat) = None) ->
  omap f (map on_unread_chat chats) = [].
Proof.
  intros Hf. induction chats as [|chat rest IH]; [done|].
  simpl. by rewrite Hf.
Qed.

Lemma tick_shape_entered L p st qr evs st' qr' :
  tick_shape L p st qr evs st' qr' ->
  (omap entered evs = [] /\ st' = st) \/
  (exists s, omap entered evs = [s] /\ st' = Some s /\ Some s <> st).
Proof.
  destruct 1 as [|s e _ Hne He _| |s chats].
  - by left.
  - right. exists s. simpl. by rewrite He.
  - by left.
  - left. split; [|done]. rewrite omap_app. by rewrite omap_unread.
Qed.

Lemma tick_shape_payload L p st qr evs st' qr' :
  tick_shape L p st qr evs st' qr' ->
  (omap qr_payload evs = [] /\ qr' = qr) \/
  (exists q, omap qr_payload evs = [q] /\ qr' = Some q).
Proof.
  destruct 1 as [|s e _ _ _ _|q|s chats].
  - by left.
  - simpl. destruct (qr_payload e) as [q|]; [right; by exists q|by left].
  - right. by exists q.
  - left. split; [|done]. rewrite omap_app. by rewrite omap_unread.
Qed.

Lemma tick_shape_not_start L p st qr evs st' qr' :
  tick_shape L p st qr evs st' qr' -> Forall (fun e => e <> on_start) evs.
Proof.
  destruct 1 as [|s e _ _ He _|q|s chats].
  - constructor.
  - repeat constructor; [|done]. by intros ->.
  - by repeat constructor.
  - apply Forall_app. split; [|by repeat constructor].
    apply Forall_forall. intros e He.
    apply list_elem_of_fmap in He as (chat & -> & _). done.
Qed.

(** X10. In every run, however it ends, [on_start] is the first event
    fired and is never fired again. *)
Theorem on_start_first_and_once (L : gmap string locator) (pages : list Page)
    (c : Client) (fr : Frame) (r : Result unit) :
  main_loop L pages c = (fr, r) ->
  exists rest, fired fr = on_start :: rest /\ Forall (fun e => e <> on_start) rest.
Proof.
  apply (main_loop_invariant
           (fun fr => exists rest, fired fr = on_start :: rest /\
                                   Forall (fun e => e <> on_start) rest)).
  - by exists [].
  - intros p fr0 evs st qr _ _ (rest & Hf & Hall) Hshape.
    exists (rest ++ evs). unfold advance. cbn [fired]. split; [by rewrite Hf|].
    apply Forall_app. split; [done|]. by eapply tick_shape_not_start.
Qed.

Lemma on_start_first_and_once_witness :
  exists rest,
    fired (main_loop Locator [auth_page; qr_gone_page] (started passive)).1
      = on_start :: rest /\
    Forall (fun e => e <> on_start) rest.
Proof.
  eapply (on_start_first_and_once Locator [auth_page; qr_gone_page] (started passive)).
  apply surjective_pairing.
Defined.

(** X11. However a run ends, the two local variables of the loop hold
    what the application was last told: [state] is the state of the last
    state-entry event fired ([None] before the first), and [qr_binary]
    is the payload of the last [on_qr] or [on_qr_change] event fired. *)
Theorem locals_are_the_last_announced (L : gmap string locator)
    (pages : list Page) (c : Client) (fr : Frame) (r : Result unit) :
  main_loop L pages c = (fr, r) ->
  state fr = last (omap entered (fired fr)) /\
  qr_binary fr = last (omap qr_payload (fired fr)).
Proof.
  apply (main_loop_invariant
           (fun fr => state fr = last (omap entered (fired fr)) /\
                      qr_binary fr = last (omap qr_payload (fired fr)))).
  - done.
  - intros p fr0 evs st qr _ _ [Hs Hq] Hshape.
    unfold advance. cbn [state qr_binary fired]. rewrite !omap_app. split.
    + destruct (tick_shape_entered _ _ _ _ _ _ _ Hshape)
        as [[-> ->]|(s & -> & -> & _)].
      * by rewrite app_nil_r.
      * by rewrite last_snoc.
    + destruct (tick_shape_payload _ _ _ _ _ _ _ Hshape)
        as [[-> ->]|(q & -> & ->)].
      * by rewrite app_nil_r.
      * by rewrite last_snoc.
Qed.

Lemma locals_are_the_last_announced_witness :
  state (main_loop Locator [auth_page; qr_page image1; qr_page image2; blank_page]
           (started passive)).1 = Some QR_AUTH /\
  qr_binary (main_loop Locator [auth_page; qr_page image1; qr_page image2; blank_page]
               (started passive)).1 = Some image2.
Proof.
  destruct (locals_are_the_last_announced Locator
              [auth_page; qr_page image1; qr_page image2; blank_page]
              (started passive) _ _ (surjective_pairing _)) as [Hs Hq].
  split; [exact Hs|exact Hq].
Defined.

Lemma no_stutter_snoc l s :
  no_stutter l -> last l <> Some s -> no_stutter (l ++ [s]).
Proof.
  induction l as [|a [|b l] IH]; intros Hl Hlast; [done|..].
  - simpl. split; [|done]. by intros ->.
  - destruct Hl as [Hab Hl]. split; [done|]. apply IH; [done|].
    by rewrite last_cons_cons in Hlast.
Qed.

(** X12. However a run ends, no two consecutive state-entry events
    announce the same state: between two entries into a state the
    application is always told of an entry into another one. *)
Theorem no_state_entered_twice_in_a_row (L : gmap string locator)
    (pages : list Page) (c : Client) (fr : Frame) (r : Result unit) :
  main_loop L pages c = (fr, r) ->
  no_stutter (omap entered (fired fr)).
Proof.
  intros H.
  apply (main_loop_invariant
           (fun fr => state fr = last (omap entered (fired fr)) /\
                      no_stutter (omap entered (fired fr)))
           L pages c fr r); [done| |done].
  intros p fr0 evs st qr _ _ [Hs Hn] Hshape.
  unfold advance. cbn [state fired]. rewrite !omap_app.
  destruct (tick_shape_entered _ _ _ _ _ _ _ Hshape)
    as [[-> ->]|(s & -> & -> & Hne)].
  - by rewrite app_nil_r.
  - rewrite last_snoc. split; [done|]. apply no_stutter_snoc; [done|].
    by rewrite <- Hs.
Qed.

Lemma no_state_entered_twice_in_a_row_witness :
  no_stutter
    (omap entered
       (fired (main_loop Locator
                 [auth_page; auth_page; blank_page; auth_page; qr_page image1; auth_page]
                 (started passive)).1)).
Proof.
  eapply (no_state_entered_twice_in_a_row Locator
            [auth_page; auth_page; blank_page; auth_page; qr_page image1; auth_page]
            (started passive)).
  apply surjective_pairing.
Defined.

Lemma filter_tick_quiet evs :
  Forall (fun e => entered e = None /\ is_tick e = false) evs ->
  List.filter is_tick evs = [].
Proof.
  induction 1 as [|e evs [_ He] _ IH]; [done|]. simpl. by rewrite He.
Qed.

Lemma iteration_ticks L p fr fr' :
  iteration L p fr = (fr', Ok tt) ->
  length (List.filter is_tick (fired fr'))
  = length (List.filter is_tick (fired fr))
    + match classified L p with Some _ => 1 | None => 0 end.
Proof.
  intros H. apply iteration_inv in H as [_ H].
  destruct (classified L p) as [s|]; [|subst; lia].
  destruct (decide (Some s = state fr)).
  - destruct H as (_ & evs & -> & Hall).
    rewrite !List.filter_app, (filter_tick_quiet _ Hall), !length_app. simpl. lia.
  - destruct H as (_ & e & He & ->).
    rewrite List.filter_app, length_app. simpl.
    destruct e; try done; simpl; lia.
Qed.

Lemma while_running_ticks L pages fr fr' :
  while_running L pages fr = (fr', Ok tt) ->
  running (self fr') = true ->
  length (List.filter is_tick (fired fr'))
  = length (List.filter is_tick (fired fr))
    + length (List.filter (fun p => bool_decide (is_Some (classified L p))) pages).
Proof.
  revert fr. induction pages as [|p rest IH]; intros fr; cbn [while_running List.filter].
  - destruct (running (self fr)); intros [= <-]; simpl; lia.
  - destruct (running (self fr)) eqn:Hrun.
    + intros H Hrun'.
      apply bind_inv in H as [(e & _ & [=])|([] & fr1 & Hit & H)].
      rewrite (IH _ H Hrun'), (iteration_ticks _ _ _ _ Hit).
      destruct (classified L p); simpl; lia.
    + intros [= <-] ?. congruence.
Qed.

(** X13. In a run that polled all its pages and is still running, the
    number of [on_tick] events is the number of pages on which the
    classifier answered a state: the pages it answered [None] on are not
    counted by [on_tick]. *)
Theorem on_tick_counts_classified_pages (L : gmap string locator)
    (pages : list Page) (c : Client) (fr : Frame) :
  main_loop L pages c = (fr, Ok tt) ->
  running (self fr) = true ->
  length (List.filter is_tick (fired fr))
  = length (List.filter (fun p => bool_decide (is_Some (classified L p))) pages).
Proof.
  unfold main_loop. intros H Hrun.
  apply bind_inv in H as [(e & _ & [=])|([] & fr0 & Hstart & H)].
  rewrite (while_running_ticks _ _ _ _ H Hrun).
  apply trigger_event_inv in Hstart as (_ & _ & -> & _). done.
Qed.

Lemma on_tick_counts_classified_pages_witness :
  length (List.filter is_tick
            (fired (main_loop Locator
                      [blank_page; auth_page; blank_page; qr_page image1; blank_page]
                      (started passive)).1))
  = 2.
Proof.
  apply (on_tick_counts_classified_pages Locator
           [blank_page; auth_page; blank_page; qr_page image1; blank_page]
           (started passive)).
  - vm_compute. reflexivity.
  - vm_compute. reflexivity.
Defined.

(** X14. A steady logged-in tick reports every unread chat of the scan,
    in the order of the scan and before [on_tick], and reports it again
    on the next tick as long as the scan finds it; and a scan that
    raises, whatever the exception (a button that is not found
    included), ends the iteration and the loop with nothing fired. *)
Theorem unread_chats_reported_every_tick (L : gmap string locator) (p : Page)
    (fr : Frame) :
  has_driver fr ->
  _get_state L p = Ok (Some LOGGED_IN) ->
  state fr = Some LOGGED_IN ->
  (forall chats, unread_scan L p = Ok chats ->
     exists fr1 fr2,
       iteration L p fr = (fr1, Ok tt) /\
       iteration L p fr1 = (fr2, Ok tt) /\
       fired fr1 = fired fr ++ map on_unread_chat chats ++ [on_tick] /\
       fired fr2 = fired fr1 ++ map on_unread_chat chats ++ [on_tick] /\
       state fr2 = Some LOGGED_IN /\ qr_binary fr2 = qr_binary fr) /\
  (forall e, unread_scan L p = Raise e ->
     iteration L p fr = (fr, Raise e) /\
     forall rest, running (self fr) = true ->
       while_running L (p :: rest) fr = (fr, Raise e)).
Proof.
  intros Hd Hget Hst.
  assert (Hstep : forall fr0, has_driver fr0 -> state fr0 = Some LOGGED_IN ->
    iteration L p fr0
    = match unread_scan L p with
      | Ok chats =>
          (advance (map on_unread_chat chats ++ [on_tick])
             (state fr0) (qr_binary fr0) fr0, Ok tt)
      | Raise e => (fr0, Raise e)
      end).
  { intros fr0 Hd0 Hst0. unfold iteration. unfold bind at 1. unfold call at 1.
    rewrite Hget. unfold bind at 1.
    destruct (decide (Some LOGGED_IN <> state fr0)) as [Hne|_];
      [by rewrite Hst0 in Hne|].
    unfold steady. cbn [decide]. unfold bind at 1. unfold call.
    destruct (decide (LOGGED_IN = QR_AUTH)) as [|_]; [done|].
    destruct (decide (LOGGED_IN = LOGGED_IN)) as [_|]; [|done].
    unfold bind at 1. destruct (unread_scan L p) as [chats|e]; [|done].
    rewrite (trigger_unread_advance _ _ Hd0).
    rewrite trigger_event_advance by by apply has_driver_advance.
    by rewrite advance_advance. }
  split.
  - intros chats Hscan. do 2 eexists.
    split; [rewrite (Hstep fr Hd Hst), Hscan; reflexivity|].
    split; [rewrite Hstep, Hscan; [reflexivity|by apply has_driver_advance|done]|].
    by simpl.
  - intros e Hscan.
    assert (Hit : iteration L p fr = (fr, Raise e))
      by by rewrite (Hstep fr Hd Hst), Hscan.
    split; [done|]. intros rest Hrun. by apply while_running_fatal.
Qed.

Lemma unread_chats_reported_every_tick_witness :
  exists fr1 fr2,
    iteration Locator (logged_in_page [item "0" "Alice"])
      {| self := started passive; state := Some LOGGED_IN;
         qr_binary := None; fired := [on_start; on_logged_in; on_tick] |}
    = (fr1, Ok tt) /\
    iteration Locator (logged_in_page [item "0" "Alice"]) fr1 = (fr2, Ok tt) /\
    length (fired fr2) = 7.
Proof.
  destruct (unread_chats_reported_every_tick Locator
              (logged_in_page [item "0" "Alice"])
              {| self := started passive; state := Some LOGGED_IN;
                 qr_binary := None; fired := [on_start; on_logged_in; on_tick] |})
    as [Hok _].
  - by eexists.
  - vm_compute. reflexivity.
  - reflexivity.
  - destruct (Hok [{| category := Some "CHATS"; title := "Alice";
                      unreadCount := None |}])
      as (fr1 & fr2 & H1 & H2 & Hf1 & Hf2 & _).
    + vm_compute. reflexivity.
    + exists fr1, fr2. split; [exact H1|]. split; [exact H2|].
      rewrite Hf2, Hf1. reflexivity.
Defined.

Lemma while_running_app L pages more fr :
  while_running L (pages ++ more) fr
  = match while_running L pages fr with
    | (fr1, Ok _) => while_running L more fr1
    | (fr1, Raise e) => (fr1, Raise e)
    end.
Proof.
  revert fr. induction pages as [|p rest IH]; intros fr.
  - simpl. destruct (running (self fr)) eqn:Hrun; [done|].
    destruct more; simpl; by rewrite Hrun.
  - cbn [app while_running]. destruct (running (self fr)) eqn:Hrun.
    + unfold bind. destruct (iteration L p fr) as [fr1 [[]|e]]; [apply IH|done].
    + destruct more; simpl; by rewrite Hrun.
Qed.

(** X15. Runs compose: the loop over more pages goes on from the frame
    the loop over the first pages reached. Once the loop has ended, by
    an exception or because a handler stopped the client, no further
    page is polled: whatever pages follow, the outcome is the same. *)
Theorem pages_after_the_end_are_not_polled (L : gmap string locator)
    (pages more : list Page) (c : Client) :
  main_loop L (pages ++ more) c
  = match main_loop L pages c with
    | (fr, Ok _) => while_running L more fr
    | (fr, Raise e) => (fr, Raise e)
    end /\
  (forall fr r, main_loop L pages c = (fr, r) ->
     r <> Ok tt \/ running (self fr) = false ->
     main_loop L (pages ++ more) c = (fr, r)).
Proof.
  assert (H : main_loop L (pages ++ more) c
              = match main_loop L pages c with
                | (fr, Ok _) => while_running L more fr
                | (fr, Raise e) => (fr, Raise e)
                end).
  { rewrite !main_loop_boot. apply while_running_app. }
  split; [done|]. intros fr r Hrun Hend. rewrite H, Hrun.
  destruct r as [[]|e]; [|done].
  destruct Hend as [?|Hstop]; [done|].
  destruct more; simpl; by rewrite Hstop.
Qed.

Lemma pages_after_the_end_are_not_polled_witness :
  main_loop Locator ([auth_page; logged_in_page []] ++ [auth_page; qr_page image1])
    (started stop_when_logged_in)
  = main_loop Locator [auth_page; logged_in_page []] (started stop_when_logged_in).
Proof.
  rewrite (proj2 (pages_after_the_end_are_not_polled Locator
                    [auth_page; logged_in_page []] [auth_page; qr_page image1]
                    (started stop_when_logged_in))
             _ _ (surjective_pairing _)).
  - symmetry. apply surjective_pairing.
  - right. vm_compute. reflexivity.
Defined.

Lemma while_running_skip L p rest fr :
  indeterminate L p = true ->
  while_running L (p :: rest) fr = while_running L rest fr.
Proof.
  unfold indeterminate. intros Hp. simpl.
  destruct (running (self fr)) eqn:Hrun.
  - unfold bind at 1. unfold iteration, bind, call.
    destruct (_get_state L p) as [[|]|]; done.
  - destruct rest; simpl; by rewrite Hrun.
Qed.

(** X16. The pages on which the classifier answers [None] leave no
    trace: a run over a sequence of pages ends in the same frame, with
    the same events fired and the same result, as the run over the
    sequence without those pages. *)
Theorem indeterminate_pages_leave_no_trace (L : gmap string locator)
    (pages : list Page) (c : Client) :
  main_loop L (List.filter (fun p => negb (indeterminate L p)) pages) c
  = main_loop L pages c.
Proof.
  rewrite !main_loop_boot. generalize (advance [on_start] None None (boot c)).
  induction pages as [|p rest IH]; intros fr; [done|].
  cbn [List.filter]. destruct (indeterminate L p) eqn:Hp; simpl negb; cbv iota.
  - rewrite (while_running_skip _ _ _ _ Hp). apply IH.
  - cbn [while_running]. destruct (running (self fr)); [|done].
    unfold bind. destruct (iteration L p fr) as [fr1 [[]|e]]; [apply IH|done].
Qed.

(* ===================================================================== *)
(** ** The sort key of a search item *)

Lemma string_app_cons x (a b : string) : String x a +:+ b = String x (a +:+ b).
Proof. reflexivity. Qed.

Lemma string_app_assoc (a b c : string) : (a +:+ b) +:+ c = a +:+ b +:+ c.
Proof.
  induction a as [|x a IH]; [done|]. by rewrite !string_app_cons, IH.
Qed.

Lemma string_app_nil_r (a : string) : a +:+ EmptyString = a.
Proof. induction a as [|x a IH]; [done|]. by rewrite string_app_cons, IH. Qed.



Lemma findall_no_digit run s :
  has_digit s = false -> findall_digits_from run s = flush run.
Proof.
  revert run. induction s as [|c s IH]; intros run; simpl; [done|].
  intros [Hc Hs]%orb_false_iff. rewrite Hc, (IH _ Hs). simpl. apply app_nil_r.
Qed.




Lemma findall_app_sep run pre sep rest :
  is_digit sep = false ->
  findall_digits_from run (pre +:+ String sep rest)
  = findall_digits_from run (pre +:+ String sep EmptyString)
    ++ findall_digits_from EmptyString rest.
Proof.
  intros Hsep. revert run. induction pre as [|c pre IH]; intros run.
  - change (EmptyString +:+ ?x) with x. simpl. rewrite Hsep. simpl.
    by rewrite app_nil_r.
  - rewrite !string_app_cons. cbn [findall_digits_from].
    destruct (is_digit c); [apply IH|]. rewrite IH. by rewrite app_assoc.
Qed.

Lemma findall_last_run run ds suf :
  all_digits ds = true -> has_digit suf = false ->
  run +:+ ds <> EmptyString ->
  findall_digits_from run (ds +:+ suf) = [run +:+ ds].
Proof.
  revert run. induction ds as [|c ds IH]; intros run Hds Hsuf Hne.
  - change (EmptyString +:+ suf) with suf.
    rewrite string_app_nil_r in *. rewrite (findall_no_digit _ _ Hsuf).
    by destruct run.
  - simpl in Hds. apply andb_true_iff in Hds as [Hc Hds].
    rewrite string_app_cons. cbn [findall_digits_from]. rewrite Hc.
    rewrite IH; [|done|done|].
    + by rewrite string_app_assoc.
    + rewrite string_app_assoc. by destruct run.
Qed.

(** X18. The key is the number written by the last run of digits of the
    transform and nothing else: whatever comes before the character that
    precedes that run (a sign, an integer part before a decimal point,
    the other arguments of a matrix) has no influence on it. *)
Theorem search_sort_key_is_the_last_run (i : Element) (pre : string)
    (sep : ascii) (ds suf : string) :
  transform i = pre +:+ String sep (ds +:+ suf) ->
  is_digit sep = false ->
  ds <> EmptyString -> all_digits ds = true ->
  has_digit suf = false ->
  search_sort_key i = Ok (int ds).
Proof.
  intros Ht Hsep Hne Hds Hsuf. unfold search_sort_key, findall_digits.
  rewrite Ht, (findall_app_sep _ _ _ _ Hsep).
  rewrite (findall_last_run EmptyString ds suf Hds Hsuf Hne). simpl.
  by rewrite last_snoc.
Qed.

Lemma search_sort_key_is_the_last_run_witness :
  search_sort_key (Elem "div" [] "translateY(-40.5px)" "" []) = Ok 5%N /\
  search_sort_key (Elem "div" [] "matrix(1, 0, 0, 1, 0, 72)" "" []) = Ok 72%N.
Proof.
  split.
  - apply (search_sort_key_is_the_last_run _ "translateY(-40" "."%char "5" "px)");
      done.
  - apply (search_sort_key_is_the_last_run _ "matrix(1, 0, 0, 1, 0," " "%char "72" ")");
      done.
Defined.

(* ===================================================================== *)
(** ** The order of the page does not matter *)

Section SortUnique.
Context {A : Type}.
Implicit Types (x : N * A) (l : list (N * A)).

(** A list has one sorted arrangement when its keys are distinct. *)
Lemma sorted_unique l1 l2 :
  Sorted le_key l1 -> Sorted le_key l2 ->
  Permutation l1 l2 -> NoDup (map fst l1) -> l1 = l2.
Proof.
  intros H1 H2.
  assert (Ht : Relations_1.Transitive (@le_key A)).
  { intros a b c. unfold le_key. lia. }
  apply (Sorted_StronglySorted Ht) in H1, H2. clear Ht.
  revert l2 H2. induction H1 as [|x l1 Hs1 IH Hx]; intros l2 H2 Hp Hnd.
  - by apply Permutation_nil in Hp.
  - destruct H2 as [|y l2 Hs2 Hy].
    { symmetry in Hp. by apply Permutation_nil in Hp. }
    assert (Hxy : x = y).
    { assert (Hyin : In y (x :: l1)).
      { apply (Permutation_in _ (Permutation_sym Hp)). by left. }
      destruct Hyin as [|Hyin]; [done|].
      assert (Hxin : In x (y :: l2)) by (apply (Permutation_in _ Hp); by left).
      destruct Hxin as [|Hxin]; [done|].
      rewrite List.Forall_forall in Hx, Hy.
      pose proof (Hx _ Hyin) as Hle1. pose proof (Hy _ Hxin) as Hle2.
      unfold le_key in *. simpl in Hnd. apply NoDup_cons in Hnd as [Hnotin _].
      exfalso. apply Hnotin. replace (fst x) with (fst y) by lia.
      apply list_elem_of_In. by apply in_map. }
    subst y. f_equal. apply IH; [done| |].
    + by apply Permutation_cons_inv in Hp.
    + simpl in Hnd. by apply NoDup_cons in Hnd as [_ ?].
Qed.

Variable key : A -> Result N.

Lemma mapM_key_value (items : list A) :
  Forall (fun i => is_Ok (key i) = true) items ->
  Res.mapM key items = Ok (map (key_value key) items).
Proof.
  induction 1 as [|i items Hi _ IH]; [done|].
  simpl. unfold key_value at 1. destruct (key i); [|done]. simpl. by rewrite IH.
Qed.

Lemma combine_key_value (items : list A) :
  combine (map (key_value key) items) items
  = map (fun i => (key_value key i, i)) items.
Proof. induction items as [|i items IH]; simpl; [done|]. by rewrite IH. Qed.

Lemma sorted_permutation_invariant (items items' : list A) :
  Permutation items items' ->
  Forall (fun i => is_Ok (key i) = true) items ->
  NoDup (map (key_value key) items) ->
  sorted key items' = sorted key items.
Proof.
  intros Hp Hall Hnd.
  assert (Hall' : Forall (fun i => is_Ok (key i) = true) items').
  { by rewrite <- Hp. }
  unfold sorted. rewrite !mapM_key_value by done. cbn [Res.bind].
  rewrite !combine_key_value. do 2 f_equal. apply sorted_unique.
  - apply sort_by_key_sorted.
  - apply sort_by_key_sorted.
  - rewrite !sort_by_key_perm. apply Permutation_map. by symmetry.
  - rewrite sort_by_key_perm, <- Hp.
    rewrite map_map. simpl. done.
Qed.
End SortUnique.

(** X19. When the offsets of the search items are pairwise distinct, the
    results of [search] do not depend on the order in which the page
    lists the items: any rearrangement of the items gives the same
    results, in the same order. *)
Theorem search_ignores_document_order
    (parse : Element -> option string -> option SearchResult)
    (items items' : list Element) :
  Permutation items items' ->
  Forall (fun i => is_Ok (search_sort_key i) = true) items ->
  NoDup (map (key_value search_sort_key) items) ->
  search_from parse items' = search_from parse items.
Proof.
  intros Hp Hall Hnd. unfold search_from.
  by rewrite (sorted_permutation_invariant search_sort_key items items').
Qed.

Lemma search_ignores_document_order_witness :
  search [item "72" "Alice"; header "0" "CHATS"; item "144" "Bob"]
  = search [header "0" "CHATS"; item "72" "Alice"; item "144" "Bob"].
Proof.
  apply (search_ignores_document_order parse_search_result).
  - apply perm_swap.
  - repeat constructor.
  - apply (bool_decide_unpack _). vm_compute. exact I.
Defined.

(* ===================================================================== *)
(** ** Headers, items and failures of the search *)

(** X20. A header overrides whatever category was in force: the items
    that follow it, up to the next header, are parsed under its text,
    whatever fragments came before it; and the items above every header
    are parsed under [None]. This holds for any parser of items. *)
Theorem header_overrides_the_category
    (parse : Element -> option string -> option SearchResult)
    (before items : list Element) (h : Element) (t : string) :
  header_text h = Some t ->
  Forall (fun e => header_text e = None) items ->
  search_loop parse (before ++ h :: items)
    = (Some t,
       snd (search_loop parse before)
       ++ omap (fun e => parse e (Some t)) items) /\
  search_loop parse items = (None, omap (fun e => parse e None) items).
Proof.
  intros Hh Hitems. unfold search_loop. split.
  - rewrite fold_left_app.
    destruct (fold_left (search_step parse) before (None, [])) as [ct rs].
    cbn [fold_left snd]. rewrite (search_step_header _ _ _ _ _ Hh).
    by apply search_loop_items.
  - by rewrite (search_loop_items _ _ _ _ Hitems).
Qed.

Lemma header_overrides_the_category_witness :
  search_loop parse_search_result
    ([header "0" "CHATS"; item "72" "Alice"]
     ++ header "144" "CONTACTS" :: [item "216" "Carol"])
  = (Some "CONTACTS",
     snd (search_loop parse_search_result [header "0" "CHATS"; item "72" "Alice"])
     ++ omap (fun e => parse_search_result e (Some "CONTACTS")) [item "216" "Carol"]).
Proof.
  apply (header_overrides_the_category parse_search_result).
  - reflexivity.
  - repeat constructor.
Defined.









(* ===================================================================== *)
(** ** The query surface *)

Lemma qbind_inv {A B} (m : Query.Q A) (k : A -> Query.Q B) log log' r :
  Query.bind m k log = (log', r) ->
  (exists e, m log = (log', Raise e) /\ r = Raise e) \/
  (exists a log1, m log = (log1, Ok a) /\ k a log1 = (log', r)).
Proof.
  unfold Query.bind. destruct (m log) as [log1 [a|e]] eqn:E.
  - intros H. right. eauto.
  - intros [= <- <-]. left. eauto.
Qed.


Lemma perform_inv b a log log' r :
  Query.perform b a log = (log', r) ->
  (r = Ok tt /\ log' = log ++ [a] /\ accepts b log a = Ok tt) \/
  (exists e, r = Raise e /\ log' = log /\ accepts b log a = Raise e).
Proof.
  unfold Query.perform. destruct (accepts b log a) as [[]|e]; intros [= <- <-].
  - by left.
  - right. by exists e.
Qed.

Lemma find_elements_by_inv L b name log log' r :
  Query.find_elements_by L b name log = (log', r) ->
  log' = log /\
  r = Res.bind (getattr L name) (fun l => lookup_all b log l).
Proof.
  unfold Query.find_elements_by, Query.bind, Query.ask.
  destruct (getattr L name); by intros [= <- <-].
Qed.


(** X22. [_click_search_button] does exactly one thing when it returns
    [True]: one click at the offset (10, 10), on the first inactive
    search button if there is one and else on the first active one. When
    it returns [False] neither button was found and nothing was done;
    when it raises nothing was done either. *)
Theorem click_search_button_clicks_once (L : gmap string locator) (b : Browser)
    (inactive active : locator) (log log' : list Action) (r : Result bool) :
  L !! "SEARCH_BUTTON_INACTIVE" = Some inactive ->
  L !! "SEARCH_BUTTON_ACTIVE" = Some active ->
  Query._click_search_button L b log = (log', r) ->
  match r with
  | Ok true =>
      exists button, log' = log ++ [ClickAt button 10 10] /\
        ((exists rest, lookup_all b log inactive = Ok (button :: rest)) \/
         (lookup_all b log inactive = Ok [] /\
          exists rest, lookup_all b log active = Ok (button :: rest)))
  | Ok false =>
      log' = log /\ lookup_all b log inactive = Ok [] /\
      lookup_all b log active = Ok []
  | Raise _ => log' = log
  end.
Proof.
  intros Hi Ha H. unfold Query._click_search_button in H.
  apply qbind_inv in H as [(e & H & ->)|(l1 & log1 & H & Hk)];
    apply find_elements_by_inv in H as [-> Hr]; [done|].
  unfold getattr in Hr. rewrite Hi in Hr. simpl in Hr.
  destruct l1 as [|button rest].
  - apply qbind_inv in Hk as [(e & H & ->)|(l2 & log2 & H & Hk)];
      apply find_elements_by_inv in H as [-> Hr2]; [done|].
    unfold getattr in Hr2. rewrite Ha in Hr2. simpl in Hr2.
    destruct l2 as [|button rest].
    + injection Hk as <- <-. auto.
    + apply qbind_inv in Hk as [(e & H & ->)|([] & log3 & H & Hk)];
        apply perform_inv in H as [(? & -> & _)|(e' & ? & -> & _)]; try done.
      injection Hk as <- <-. exists button. split; [done|]. right. eauto.
  - apply qbind_inv in Hk as [(e & H & ->)|([] & log3 & H & Hk)];
      apply perform_inv in H as [(? & -> & _)|(e' & ? & -> & _)]; try done.
    injection Hk as <- <-. exists button. split; [done|]. left. eauto.
Qed.

Lemma click_search_button_clicks_once_witness :
  exists button,
    (Query._click_search_button Locator (sample_browser [] true) []).1
    = [] ++ [ClickAt button 10 10].
Proof.
  pose proof (click_search_button_clicks_once Locator (sample_browser [] true)
                _ _ [] _ _ eq_refl eq_refl (surjective_pairing _)) as H.
  change (Query._click_search_button Locator (sample_browser [] true) []).2
    with (@Ok bool true) in H.
  destruct H as (button & H & _). by exists button.
Defined.












(* ===================================================================== *)
(** ** Starting the loop *)

(** X26. [main_loop] does not set the running flag itself: called on a
    client whose flag is not set (without [run]), it creates the
    session, fires [on_start] and returns at once without polling any
    page, and the session it created is left open. The same happens
    under [run] when the handler of [on_start] stops the client, except
    that the session has then been told to quit once. *)
Theorem main_loop_polls_only_when_running (L : gmap string locator)
    (pages : list Page) (c : Client) :
  (running c = false -> handlers c on_start = false ->
     main_loop L pages c
     = ({| self := {| running := false; quited := quited c;
                      _driver := Some {| quit_calls := 0 |};
                      handlers := handlers c |};
           state := None; qr_binary := None; fired := [on_start] |}, Ok tt)) /\
  (handlers c on_start = true ->
     run L pages c
     = ({| self := {| running := false; quited := true;
                      _driver := Some {| quit_calls := 1 |};
                      handlers := handlers c |};
           state := None; qr_binary := None; fired := [on_start] |}, Ok tt)).
Proof.
  split.
  - intros Hrun Hh. rewrite main_loop_boot.
    unfold advance, boot, apply_handlers. simpl. rewrite Hh.
    destruct pages; simpl; by rewrite Hrun.
  - intros Hh. unfold run. rewrite main_loop_boot.
    unfold advance, boot, apply_handlers. simpl. rewrite Hh. simpl.
    by destruct pages.
Qed.

Lemma main_loop_polls_only_when_running_witness :
  fired (main_loop Locator [auth_page; qr_page image1] (__init__ passive)).1
  = [on_start].
Proof.
  rewrite (proj1 (main_loop_polls_only_when_running Locator
                    [auth_page; qr_page image1] (__init__ passive))
             eq_refl eq_refl).
  reflexivity.
Defined.

(** X27. The loading flag is probed when the loop enters the Loading
    state and at no other time: the entering iteration fires
    [on_loading] with the answer of the probe of LOADING_CHATS (and ends
    the loop if the probe raises), while an iteration that finds the
    state unchanged fires [on_tick] alone, without looking at
    LOADING_CHATS, so that it completes whatever that probe would
    answer. *)
Theorem loading_flag_probed_on_entry_only (L : gmap string locator) (p : Page)
    (fr : Frame) :
  has_driver fr ->
  _get_state L p = Ok (Some LOADING) ->
  (state fr <> Some LOADING ->
     match Res.bind (getattr L "LOADING_CHATS") (is_present p) with
     | Ok loading_chats =>
         iteration L p fr
         = (advance [on_loading loading_chats; on_tick]
              (Some LOADING) (qr_binary fr) fr, Ok tt)
     | Raise e => iteration L p fr = (fr, Raise e)
     end) /\
  (state fr = Some LOADING ->
     iteration L p fr = (advance [on_tick] (state fr) (qr_binary fr) fr, Ok tt)).
Proof.
  intros Hd Hget. split; intros Hst.
  - assert (Hit : iteration L p fr
      = match Res.bind (getattr L "LOADING_CHATS") (is_present p) with
        | Ok loading_chats =>
            (advance [on_loading loading_chats; on_tick]
               (Some LOADING) (qr_binary fr) fr, Ok tt)
        | Raise e => (fr, Raise e)
        end).
    { unfold iteration. unfold bind at 1. unfold call at 1. rewrite Hget.
      unfold bind at 1.
      destruct (decide (Some LOADING <> state fr)) as [_|Heq];
        [|by destruct Hst; apply dec_stable in Heq].
      unfold transition. unfold bind at 1. unfold bind at 1. unfold call.
      destruct (Res.bind _ _) as [loading_chats|e]; [|done].
      rewrite (trigger_event_advance _ _ Hd). unfold set_state.
      cbn [advance self state qr_binary fired].
      rewrite trigger_event_advance by by apply apply_handlers_driver.
      unfold advance. simpl. by rewrite <- app_assoc. }
    by destruct (Res.bind _ _).
  - unfold iteration. unfold bind at 1. unfold call at 1. rewrite Hget.
    unfold bind at 1.
    destruct (decide (Some LOADING <> state fr)) as [Hne|_];
      [by rewrite Hst in Hne|].
    unfold steady.
    destruct (decide (LOADING = QR_AUTH)) as [|_]; [done|].
    destruct (decide (LOADING = LOGGED_IN)) as [|_]; [done|].
    unfold ret. by rewrite (trigger_event_advance _ _ Hd).
Qed.

Lemma loading_flag_probed_on_entry_only_witness :
  fired (iteration Locator loading_page
           {| self := started passive; state := Some QR_AUTH;
              qr_binary := Some image1; fired := [on_start] |}).1
  = [on_start; on_loading true; on_tick].
Proof.
  pose proof (proj1 (loading_flag_probed_on_entry_only Locator loading_page
                       {| self := started passive; state := Some QR_AUTH;
                          qr_binary := Some image1; fired := [on_start] |}
                       (ex_intro _ _ eq_refl) eq_refl)) as H.
  rewrite H; [reflexivity|]. simpl. by intros [=].
Defined.
